(** * The energy package's E-statistic engine (src/energy.c)

    A shallow embedding of [twosampleE], [multisampleE], [ksampleEtest] and
    [E2sample], and the properties the specification states about them.

    - C [int] is a 32-bit two's-complement integer: a [Z] with the
      wrap-around written out ([wrap_int]).  Signed overflow is undefined
      in C; statements that depend on an [int] product carry the bound
      that keeps it representable, and the last section evaluates
      [twosampleE] where [m*m] wraps.
    - C [double] is kept abstract behind the class [DoubleOps], so every
      function is embedded once and can be run in two arithmetics:
      IEEE 754 binary64 ([spec_float] with precision 53, every operation
      rounded to nearest, ties to even: the arithmetic of the compiled code
      where doubles are evaluated in double precision without contraction)
      and the real numbers (the arithmetic the formulas of the
      specification are written in).
    - C arrays are lists read and written by index; a pointer into an
      array ([perm + M[i]]) is the suffix of the list from that offset. *)

From Stdlib Require Import ZArith Lia Bool Reals Lra.
From Stdlib Require Import Floats.SpecFloat.
From stdpp Require Import base list.

Local Open Scope Z_scope.

(** * Part I: the program *)

(** ** C [int] *)

Module Int.

Definition INT_MIN : Z := -2147483648.
Definition INT_MAX : Z := 2147483647.

Definition in_range (z : Z) : Prop := INT_MIN <= z <= INT_MAX.

Definition wrap_int (z : Z) : Z := (z + 2147483648) mod 4294967296 - 2147483648.

Definition add (a b : Z) : Z := wrap_int (a + b).
Definition sub (a b : Z) : Z := wrap_int (a - b).
Definition mul (a b : Z) : Z := wrap_int (a * b).

End Int.

(** ** C [double] *)

Class DoubleOps (double : Type) := {
  of_int : Z -> double;                    (* (double) n *)
  dadd : double -> double -> double;
  dsub : double -> double -> double;
  dmul : double -> double -> double;
  ddiv : double -> double -> double;
  dsqrt : double -> double;
  dlt : double -> double -> bool;          (* x < y *)
}.

Declare Scope dbl_scope.
Delimit Scope dbl_scope with D.
Infix "⊕" := dadd (at level 50, left associativity) : dbl_scope.
Infix "⊖" := dsub (at level 50, left associativity) : dbl_scope.
Infix "⊗" := dmul (at level 40, left associativity) : dbl_scope.
Infix "⊘" := ddiv (at level 40, left associativity) : dbl_scope.
Local Open Scope dbl_scope.

(** ** Control flow *)

(** [for (i = lo; i < hi; i++) s = body i s].  The counter is not written by
    any loop body of energy.c, so [hi - lo] iterations always reach the exit
    test; [i + 1] cannot overflow below an [int] bound [hi]. *)
Fixpoint for_iter {S : Type} (fuel : nat) (i hi : Z) (body : Z -> S -> S) (s : S) : S :=
  match fuel with
  | O => s
  | Datatypes.S fuel' =>
      if i <? hi then for_iter fuel' (i + 1) hi body (body i s) else s
  end.

Definition for_loop {S : Type} (lo hi : Z) (body : Z -> S -> S) (s : S) : S :=
  for_iter (Z.to_nat (hi - lo)) lo hi body s.

(** ** The functions of energy.c *)

Section Energy.

Context {double : Type} `{DoubleOps double}.

Definition matrix : Type := list (list double).

(** Array reads.  An index outside the array is undefined behaviour in C;
    the model reads a zero there. *)
Definition int_at (a : list Z) (i : Z) : Z := default 0 (a !! Z.to_nat i).
Definition dbl_at (a : list double) (i : Z) : double := default (of_int 0) (a !! Z.to_nat i).
Definition D_at (D : matrix) (i j : Z) : double := dbl_at (default [] (D !! Z.to_nat i)) j.

(** Array write [a[i] = v]. *)
Definition store {A : Type} (a : list A) (i : Z) (v : A) : list A := <[Z.to_nat i := v]> a.

(** Pointer arithmetic [a + off]. *)
Definition offset {A : Type} (a : list A) (off : Z) : list A := drop (Z.to_nat off) a.

(** [double twosampleE(double **D, int m, int n, int *xrows, int *yrows, int unbiased)] *)
Definition twosampleE (D : matrix) (m n : Z) (xrows yrows : list Z) (unbiased : Z) : double :=
  if (m <? 1) || (n <? 1) then of_int 0 else
  let sumxx :=
    for_loop 0 m (fun i sumxx =>
      for_loop (i + 1) m (fun j sumxx =>
        sumxx ⊕ D_at D (int_at xrows i) (int_at xrows j)) sumxx) (of_int 0) in
  let sumxx := sumxx ⊗ (of_int 2 ⊘ of_int (Int.mul m m)) in
  let sumyy :=
    for_loop 0 n (fun i sumyy =>
      for_loop (i + 1) n (fun j sumyy =>
        sumyy ⊕ D_at D (int_at yrows i) (int_at yrows j)) sumyy) (of_int 0) in
  let sumyy := sumyy ⊗ (of_int 2 ⊘ of_int (Int.mul n n)) in
  let sumxx :=
    if unbiased =? 1 then sumxx ⊗ (of_int m ⊘ of_int (Int.sub m 1)) else sumxx in
  let sumyy :=
    if unbiased =? 1 then sumyy ⊗ (of_int n ⊘ of_int (Int.sub n 1)) else sumyy in
  let sumxy :=
    for_loop 0 m (fun i sumxy =>
      for_loop 0 n (fun j sumxy =>
        sumxy ⊕ D_at D (int_at xrows i) (int_at yrows j)) sumxy) (of_int 0) in
  let sumxy := sumxy ⊘ of_int (Int.mul m n) in
  of_int (Int.mul m n) ⊘ of_int (Int.add m n) ⊗ (of_int 2 ⊗ sumxy ⊖ sumxx ⊖ sumyy).

(** The offsets array [M] of [multisampleE]:
    [M = Calloc(nsamples, int); M[0] = 0;
     for (k=1; k<nsamples; k++) M[k] = M[k-1] + sizes[k-1];] *)
Definition group_offsets (nsamples : Z) (sizes : list Z) : list Z :=
  let M := replicate (Z.to_nat nsamples) 0 in
  let M := store M 0 0 in
  for_loop 1 nsamples (fun k M =>
    store M k (Int.add (int_at M (k - 1)) (int_at sizes (k - 1)))) M.

(** [double multisampleE(double **D, int nsamples, int *sizes, int *perm, int unbiased)] *)
Definition multisampleE (D : matrix) (nsamples : Z) (sizes perm : list Z) (unbiased : Z) : double :=
  let M := group_offsets nsamples sizes in
  for_loop 0 nsamples (fun i e =>
    let m := int_at sizes i in
    for_loop (i + 1) nsamples (fun j e =>
      let n := int_at sizes j in
      e ⊕ twosampleE D m n (offset perm (int_at M i)) (offset perm (int_at M j)) unbiased) e)
    (of_int 0).

(** [void E2sample(double *x, int *sizes, int *dim, double *stat)];
    the result is the value stored in [*stat].  [*(x+p+k)] is [x[p+k]]. *)
Definition E2sample (x : list double) (sizes : list Z) (dim : Z) : double :=
  let m := int_at sizes 0 in
  let n := int_at sizes 1 in
  let d := dim in
  let dist (p q : Z) : double :=
    dsqrt (for_loop 0 d (fun k dsum =>
             let dif := dbl_at x (p + k) ⊖ dbl_at x (q + k) in
             dsum ⊕ dif ⊗ dif) (of_int 0)) in
  let sumxy :=
    for_loop 0 m (fun i sumxy =>
      let p := Int.mul i d in
      for_loop m (Int.add m n) (fun j sumxy =>
        let q := Int.mul j d in
        sumxy ⊕ dist p q) sumxy) (of_int 0) in
  let sumxy := sumxy ⊘ of_int (Int.mul m n) in
  let sumxx :=
    for_loop 1 m (fun i sumxx =>
      let p := Int.mul i d in
      for_loop 0 i (fun j sumxx =>
        let q := Int.mul j d in
        sumxx ⊕ dist p q) sumxx) (of_int 0) in
  let sumxx := sumxx ⊘ of_int (Int.mul m m) in
  let sumyy :=
    for_loop (Int.add m 1) (Int.add m n) (fun i sumyy =>
      let p := Int.mul i d in
      for_loop m i (fun j sumyy =>
        let q := Int.mul j d in
        sumyy ⊕ dist p q) sumyy) (of_int 0) in
  let sumyy := sumyy ⊘ of_int (Int.mul n n) in
  let w := of_int (Int.mul m n) ⊘ of_int (Int.add m n) in
  of_int 2 ⊗ w ⊗ (sumxy ⊖ sumxx ⊖ sumyy).

(** *** The permutation-test driver

    [ksampleEtest] works on the caller's buffers ([x], [*e0], [e], [*pval]),
    on R's random-number state, and on its own locals ([perm], [D], [ek]).
    [calls] is a ghost field: the arguments [(D, perm)] of every call of
    [multisampleE], oldest first. *)
Record state {G : Type} := State {
  st_x : list double;
  st_e0 : double;
  st_e : list double;
  st_pval : double;
  st_rng : G;
  st_perm : list Z;
  st_D : matrix;
  st_ek : Z;
  calls : list (matrix * list Z);
}.
Arguments state : clear implicits.

Section Driver.

(** The collaborators of utilities.c, of which energy.c has only the
    declarations.  [vector2matrix x y N d isroworder] fills [y] from the flat
    buffer [x]; [distance bxy D N d] fills [D] from the sample matrix [bxy];
    [permute J n] shuffles [J] in place, drawing from R's random-number
    state.  Each is taken as the function from what it reads to what it
    writes. *)
Context {G : Type}.
Variable vector2matrix : list double -> Z -> Z -> Z -> matrix.
Variable distance : matrix -> Z -> Z -> matrix.
Variable permute : G -> list Z -> Z -> list Z * G.

(** [N = 0; for (k=0; k<K; k++) N += sizes[k];] *)
Definition pooled_size (K : Z) (sizes : list Z) : Z :=
  for_loop 0 K (fun k N => Int.add N (int_at sizes k)) 0.

(** [perm = Calloc(N, int); for (i=0; i<N; i++) perm[i] = i;] *)
Definition identity_perm (N : Z) : list Z :=
  for_loop 0 N (fun i perm => store perm i i) (replicate (Z.to_nat N) 0).

(** [D = alloc_matrix(N, N);] then the branch on [d > 0]. *)
Definition build_D (x : list double) (byrow N d : Z) : matrix :=
  if 0 <? d
  then distance (vector2matrix x N d byrow) N d
  else vector2matrix x N N byrow.

(** One pass of the body of the bootstrap loop:
    [permute(perm, N); e[b] = multisampleE(D, K, sizes, perm, *U);
     if (e0[0] < e[b]) ek++;], where [e0[0]] is the caller's [*e0] *)
Definition replicate_step (K : Z) (sizes : list Z) (N U : Z) (b : Z) (st : state G) : state G :=
  let '(perm, rng) := permute (st_rng st) (st_perm st) N in
  let e := store (st_e st) b (multisampleE (st_D st) K sizes perm U) in
  let ek := if dlt (st_e0 st) (dbl_at e b) then Int.add (st_ek st) 1 else st_ek st in
  {| st_x := st_x st; st_e0 := st_e0 st; st_e := e; st_pval := st_pval st;
     st_rng := rng; st_perm := perm; st_D := st_D st; st_ek := ek;
     calls := calls st ++ [(st_D st, perm)] |}.

(** [void ksampleEtest(double *x, int *byrow, int *nsamples, int *sizes,
    int *dim, int *R, double *e0, double *e, double *pval, int *U)].
    The argument state holds the caller's buffers and the random-number
    state on entry; its locals are overwritten.  [GetRNGstate] and
    [PutRNGstate] bracket the loop and leave the model's random-number
    state alone; [free_matrix(D, N, N)] and [Free(perm)] end the function,
    and the model keeps the last contents of [D] and [perm] so that they
    can be stated. *)
Definition ksampleEtest (byrow nsamples : Z) (sizes : list Z) (dim R U : Z)
    (st : state G) : state G :=
  let B := R in
  let K := nsamples in
  let d := dim in
  let N := pooled_size K sizes in
  let perm := identity_perm N in
  let D := build_D (st_x st) byrow N d in
  let st :=
    {| st_x := st_x st; st_e0 := multisampleE D K sizes perm U; st_e := st_e st;
       st_pval := st_pval st; st_rng := st_rng st; st_perm := perm; st_D := D;
       st_ek := st_ek st; calls := [(D, perm)] |} in
  if 0 <? B then
    let st :=
      {| st_x := st_x st; st_e0 := st_e0 st; st_e := st_e st; st_pval := st_pval st;
         st_rng := st_rng st; st_perm := st_perm st; st_D := st_D st; st_ek := 0;
         calls := calls st |} in
    let st := for_loop 0 B (replicate_step K sizes N U) st in
    {| st_x := st_x st; st_e0 := st_e0 st; st_e := st_e st;
       st_pval := of_int (Int.add (st_ek st) 1) ⊘ of_int (Int.add B 1);
       st_rng := st_rng st; st_perm := st_perm st; st_D := st_D st; st_ek := st_ek st;
       calls := calls st |}
  else st.

End Driver.

End Energy.

Arguments state : clear implicits.

(** ** The two arithmetics *)

(** *** IEEE 754 binary64 *)

Module B64.

Definition prec : Z := 53.
Definition emax : Z := 1024.

#[global] Instance ops : DoubleOps spec_float := {
  of_int z := binary_normalize prec emax z 0 false;
  dadd := SFadd prec emax;
  dsub := SFsub prec emax;
  dmul := SFmul prec emax;
  ddiv := SFdiv prec emax;
  dsqrt := SFsqrt prec emax;
  dlt := SFltb;
}.

(** The distance matrix of points on a line with integer coordinates. *)
Definition line_distances (pts : list Z) : matrix :=
  (λ a, (λ b, of_int (Z.abs (a - b))) <$> pts) <$> pts.

End B64.

(** *** The real numbers *)

Module Real.

#[global] Instance ops : DoubleOps R := {
  of_int := IZR;
  dadd := Rplus;
  dsub := Rminus;
  dmul := Rmult;
  ddiv := Rdiv;
  dsqrt := sqrt;
  dlt x y := if Rlt_dec x y then true else false;
}.

End Real.

(** The distance matrix of points on a line, in real arithmetic. *)
Definition real_line_distances (pts : list Z) : matrix :=
  (λ a, (λ b, IZR (Z.abs (a - b))) <$> pts) <$> pts.

(** * Part II: the statements of the specification *)

(** ** The formulas of the specification *)

Section Formulas.

Context {double : Type} `{DoubleOps double}.

(** A sum of doubles, accumulated from [0.0] in list order. *)
Definition dsum (l : list double) : double := foldl dadd (of_int 0) l.

(** The index pairs [(i, j)] with [0 <= i < j < m], and with
    [0 <= i < m], [0 <= j < n], in lexicographic order. *)
Definition unordered_pairs (m : Z) : list (Z * Z) :=
  i ← seqZ 0 m; (λ j, (i, j)) <$> seqZ (i + 1) (m - (i + 1)).

Definition cross_pairs (m n : Z) : list (Z * Z) :=
  i ← seqZ 0 m; (λ j, (i, j)) <$> seqZ 0 n.

(** [Σ D[rows[i]][cols[j]]] over a list of index pairs. *)
Definition sum_over (D : matrix) (rows cols : list Z) (ps : list (Z * Z)) : double :=
  dsum ((λ p, D_at D (int_at rows p.1) (int_at cols p.2)) <$> ps).

(** PairwiseEnergyStatistic for [m, n >= 1]:
    [E(X,Y) = (m·n)/(m+n) · (2·sumxy − sumxx − sumyy)], with [m·n], [m²],
    [m+n] and [m−1] the mathematical integers. *)
Definition energy_formula (D : matrix) (m n : Z) (X Y : list Z) (unbiased : Z) : double :=
  let sumxy := sum_over D X Y (cross_pairs m n) ⊘ of_int (m * n) in
  let sumxx := sum_over D X X (unordered_pairs m) ⊗ (of_int 2 ⊘ of_int (m * m)) in
  let sumyy := sum_over D Y Y (unordered_pairs n) ⊗ (of_int 2 ⊘ of_int (n * n)) in
  let sumxx := if decide (unbiased = 1) then sumxx ⊗ (of_int m ⊘ of_int (m - 1)) else sumxx in
  let sumyy := if decide (unbiased = 1) then sumyy ⊗ (of_int n ⊘ of_int (n - 1)) else sumyy in
  of_int (m * n) ⊘ of_int (m + n) ⊗ (of_int 2 ⊗ sumxy ⊖ sumxx ⊖ sumyy).

(** Group offsets: the prefix sums of the sizes, [M[0] = 0] and
    [M[k] = M[k-1] + sizes[k-1]]. *)
Definition Zsum (l : list Z) : Z := foldr Z.add 0 l.

Definition prefix_sum (sizes : list Z) (k : Z) : Z := Zsum (take (Z.to_nat k) sizes).

(** Group [k]'s index list: the slice of the permutation array of length
    [sizes[k]] starting at the group's offset. *)
Definition group_slice (sizes perm : list Z) (k : Z) : list Z :=
  take (Z.to_nat (int_at sizes k)) (drop (Z.to_nat (prefix_sum sizes k)) perm).

(** MultiSampleEnergyStatistic: the sum of the pairwise statistic over the
    pairs of groups [(i, j)], [i < j < K]. *)
Definition multisample_formula (D : matrix) (K : Z) (sizes perm : list Z) (unbiased : Z) : double :=
  dsum ((λ p, twosampleE D (int_at sizes p.1) (int_at sizes p.2)
                (group_slice sizes perm p.1) (group_slice sizes perm p.2) unbiased)
        <$> unordered_pairs K).

(** Modelled from the spec: [Euclidean_distance] of utilities.c, of which
    energy.c has only the declaration.  "D[i][j] = Euclidean distance
    between row i and row j of the original (unpermuted) pooled sample":
    for the [n] rows of length [d] of the flat row-order buffer [x],
    [D[i][j] = sqrt(Σ_k (x[i·d+k] − x[j·d+k])²)]. *)
Definition row_distance (x : list double) (d i j : Z) : double :=
  dsqrt (dsum ((λ k, (dbl_at x (i * d + k) ⊖ dbl_at x (j * d + k))
                     ⊗ (dbl_at x (i * d + k) ⊖ dbl_at x (j * d + k))) <$> seqZ 0 d)).

Definition Euclidean_distance (x : list double) (n d : Z) : matrix :=
  (λ i, (λ j, row_distance x d i j) <$> seqZ 0 n) <$> seqZ 0 n.

(** [D[i][j] = D[j][i]] for all [i], [j]. *)
Definition symmetric (D : matrix) : Prop := forall i j : Z, D_at D i j = D_at D j i.

End Formulas.

(** The largest [m] whose square is an [int]. *)
Definition SQRT_INT_MAX : Z := 46340.

(** The index pairs [(i, j)] visited by a loop nest
    [for (i = lo; i < hi; i++) for (j = jlo i; j < jhi i; j++)]. *)
Definition loop_pairs (lo hi : Z) (jlo jhi : Z -> Z) : list (Z * Z) :=
  i ← seqZ lo (hi - lo); (λ j, (i, j)) <$> seqZ (jlo i) (jhi i - jlo i).

(** The loop nests of [E2sample]: [(i, j)] with [0 <= i < m <= j < m + n],
    and [(i, j)] with [lo <= j < i < hi]. *)
Definition block_pairs (m n : Z) : list (Z * Z) :=
  loop_pairs 0 m (λ _, m) (λ _, m + n).

Definition lower_pairs (lo hi : Z) : list (Z * Z) :=
  loop_pairs (lo + 1) hi (λ _, lo) (λ i, i).

(** ** Values of binary64 *)

(** Two doubles are the same value when they are identical, or compare
    equal with C's [==] (which identifies [+0.0] and [-0.0]). *)
Definition same_double (x y : spec_float) : Prop := x = y \/ SFeqb x y = true.

Definition NaN : spec_float := S754_nan.
Definition pos_infinity : spec_float := S754_infinity false.
Definition neg_zero : spec_float := S754_zero true.

(** A sum of reals. *)
Definition Rsum (l : list R) : R := foldr Rplus 0%R l.

(** The number of replicates [b < R] with [e0 < e[b]]. *)
Definition count_exceeding {double : Type} `{!DoubleOps double}
    (e0 : double) (e : list double) (R : Z) : Z :=
  Zsum ((λ b, if dlt e0 (dbl_at e b) then 1 else 0) <$> seqZ 0 R).

(** [p] is a bijection on [{0, ..., N-1}], as an array of [N] indices: it
    has no duplicates and holds every index below [N]. *)
Definition bijection (N : Z) (p : list Z) : Prop :=
  NoDup p /\ forall i, i ∈ p <-> 0 <= i < N.

(** A configuration the specification calls invalid, and what rejecting it
    before any computation would mean: [multisampleE] is never called and
    the caller's outputs are as they were. *)
Definition invalid_configuration (K : Z) (sizes : list Z) (R : Z) : Prop :=
  K < 2 \/ (exists k, 0 <= k < K /\ int_at sizes k < 1) \/ R < 0.

Definition rejected {double G : Type} (st st' : state double G) : Prop :=
  calls st' = [] /\ st_e0 st' = st_e0 st /\ st_e st' = st_e st /\ st_pval st' = st_pval st.

(** ** Collaborators for running the driver *)

Section Collaborators.

Context {double : Type} `{!DoubleOps double}.

(** Modelled from the spec: [vector2matrix] of utilities.c, of which energy.c
    has only the declaration.  It "reshapes a flat buffer into
    row/column-addressable form, honoring whether the source stored entries
    in row-major order": entry [(i, k)] of the [N] by [d] matrix is
    [x[i·d + k]] for a buffer in row order and [x[i + k·N]] otherwise. *)
Definition reshape (x : list double) (N d isroworder : Z) : matrix :=
  (λ i, (λ k, dbl_at x (if isroworder =? 0 then i + k * N else i * d + k)) <$> seqZ 0 d)
  <$> seqZ 0 N.

(** Modelled from the spec: [distance] of utilities.c, of which energy.c has
    only the declaration.  "D[i][j] = Euclidean distance between row i and
    row j" of the [N] by [d] sample matrix. *)
Definition sample_distance (bxy : matrix) (N d : Z) : matrix :=
  (λ i, (λ j, dsqrt (dsum ((λ k, (D_at bxy i k ⊖ D_at bxy j k)
                                 ⊗ (D_at bxy i k ⊖ D_at bxy j k)) <$> seqZ 0 d)))
        <$> seqZ 0 N) <$> seqZ 0 N.

End Collaborators.

(** A stand-in for [permute] of utilities.c, used to run the driver on
    examples: the random-number state is a counter, and the array is
    rotated by as many places as draws were made. *)
Definition rotate_permute (g : nat) (J : list Z) (n : Z) : list Z * nat :=
  (rotate (Datatypes.S g) J, Datatypes.S g).

(** The caller's memory on entry to a run over points on a line: the
    pooled sample, room for [R] replicates, and outputs not yet written
    (they hold [7.0]). *)
Definition entry_state (pts : list Z) (R : Z) : state spec_float nat :=
  {| st_x := of_int <$> pts; st_e0 := of_int 7; st_e := replicate (Z.to_nat R) (of_int 7);
     st_pval := of_int 7; st_rng := 0%nat; st_perm := []; st_D := []; st_ek := 0;
     calls := [] |}.

Ltac solve_symmetric :=
  let i := fresh "i" in let j := fresh "j" in
  intros i j; unfold D_at, dbl_at;
  generalize (Z.to_nat i) (Z.to_nat j); clear i j; intros i j;
  do 8 (try (destruct i as [|i])); do 8 (try (destruct j as [|j]));
  reflexivity.

(** ** The other functions of energy.c *)

Section OtherFunctions.

Context {double : Type} `{!DoubleOps double}.

(** [double E2(double **x, int *sizes, int *start, int ncol, int *perm)]:
    the two-sample statistic of the rows [perm[row1..row1+m-1]] and
    [perm[row2..row2+n-1]] of the sample matrix [x], without a distance
    matrix. *)
Definition E2 (x : matrix) (sizes start : list Z) (ncol : Z) (perm : list Z) : double :=
  let m := int_at sizes 0 in
  let n := int_at sizes 1 in
  let row1 := int_at start 0 in
  let row2 := int_at start 1 in
  let dist (p q : Z) : double :=
    dsqrt (for_loop 0 ncol (fun k dsum =>
             let dif := D_at x p k ⊖ D_at x q k in
             dsum ⊕ dif ⊗ dif) (of_int 0)) in
  let sumxy :=
    for_loop 0 m (fun i sumxy =>
      let p := int_at perm (Int.add row1 i) in
      for_loop 0 n (fun j sumxy =>
        let q := int_at perm (Int.add row2 j) in
        sumxy ⊕ dist p q) sumxy) (of_int 0) in
  let sumxy := sumxy ⊘ of_int (Int.mul m n) in
  let sumxx :=
    for_loop 1 m (fun i sumxx =>
      let p := int_at perm (Int.add row1 i) in
      for_loop 0 i (fun j sumxx =>
        let q := int_at perm (Int.add row1 j) in
        sumxx ⊕ dist p q) sumxx) (of_int 0) in
  let sumxx := sumxx ⊘ of_int (Int.mul m m) in
  let sumyy :=
    for_loop 1 n (fun i sumyy =>
      let p := int_at perm (Int.add row2 i) in
      for_loop 0 i (fun j sumyy =>
        let q := int_at perm (Int.add row2 j) in
        sumyy ⊕ dist p q) sumyy) (of_int 0) in
  let sumyy := sumyy ⊘ of_int (Int.mul n n) in
  let w := of_int (Int.mul m n) ⊘ of_int (Int.add m n) in
  of_int 2 ⊗ w ⊗ (sumxy ⊖ sumxx ⊖ sumyy).

(** [double edist(double **D, int m, int n, int unbiased)] *)
Definition edist (D : matrix) (m n : Z) (unbiased : Z) : double :=
  if (m <? 1) || (n <? 1) then of_int 0 else
  let sumxx :=
    for_loop 0 m (fun i sumxx =>
      for_loop (i + 1) m (fun j sumxx => sumxx ⊕ D_at D i j) sumxx) (of_int 0) in
  let sumxx := sumxx ⊗ (of_int 2 ⊘ of_int (Int.mul m m)) in
  let sumyy :=
    for_loop 0 n (fun i sumyy =>
      for_loop (i + 1) n (fun j sumyy => sumyy ⊕ D_at D i j) sumyy) (of_int 0) in
  let sumyy := sumyy ⊗ (of_int 2 ⊘ of_int (Int.mul n n)) in
  let sumxx :=
    if unbiased =? 1 then sumxx ⊗ (of_int m ⊘ of_int (Int.sub m 1)) else sumxx in
  let sumyy :=
    if unbiased =? 1 then sumyy ⊗ (of_int n ⊘ of_int (Int.sub n 1)) else sumyy in
  let sumxy :=
    for_loop 0 m (fun i sumxy =>
      for_loop 0 n (fun j sumxy => sumxy ⊕ D_at D i j) sumxy) (of_int 0) in
  let sumxy := sumxy ⊘ of_int (Int.mul m n) in
  of_int (Int.mul m n) ⊘ of_int (Int.add m n) ⊗ (of_int 2 ⊗ sumxy ⊖ sumxx ⊖ sumyy).

End OtherFunctions.

(** ** Index sets and matrices for the further properties *)

(** The diagonal index pairs [(i, i)], [0 <= i < m]. *)
Definition diagonal_pairs (m : Z) : list (Z * Z) := (λ i, (i, i)) <$> seqZ 0 m.

(** The matrix [D] with every entry multiplied by [c]. *)
Definition scale_matrix (c : R) (D : list (list R)) : list (list R) :=
  (λ row : list R, Rmult c <$> row) <$> D.

(** [n] successive calls [permute(perm, N)], starting from the array [J] and
    the random-number state [g]: the array and the state after the last
    call. *)
Definition shuffles {G : Type} (permute : G -> list Z -> Z -> list Z * G) (N : Z) (n : nat)
    (J : list Z) (g : G) : list Z * G :=
  Nat.iter n (λ Jg, permute Jg.2 Jg.1 N) (J, g).

(** * Part III: proofs *)

(** ** C [int] *)

Lemma wrap_int_id (z : Z) : Int.in_range z -> Int.wrap_int z = z.
Proof.
  unfold Int.in_range, Int.wrap_int, Int.INT_MIN, Int.INT_MAX. intros H.
  rewrite Z.mod_small; lia.
Qed.

Lemma wrap_int_range (z : Z) : Int.in_range (Int.wrap_int z).
Proof.
  unfold Int.in_range, Int.wrap_int, Int.INT_MIN, Int.INT_MAX.
  pose proof (Z.mod_pos_bound (z + 2147483648) 4294967296). lia.
Qed.

(** ** Loops as folds *)

Section Loops.

Context {S : Type}.

Lemma for_iter_foldl (fuel : nat) (lo hi : Z) (body : Z -> S -> S) (s : S) :
  fuel = Z.to_nat (hi - lo) ->
  for_iter fuel lo hi body s = foldl (λ s i, body i s) s (seqZ lo (hi - lo)).
Proof.
  revert lo s. induction fuel as [|fuel IH]; intros lo s Hf.
  - rewrite seqZ_nil by lia. reflexivity.
  - rewrite seqZ_cons by lia. simpl.
    destruct (Z.ltb_spec lo hi) as [_|Hge]; [|lia].
    rewrite IH by lia. do 2 f_equal; lia.
Qed.

Lemma for_loop_foldl (lo hi : Z) (body : Z -> S -> S) (s : S) :
  for_loop lo hi body s = foldl (λ s i, body i s) s (seqZ lo (hi - lo)).
Proof. apply for_iter_foldl. reflexivity. Qed.

Lemma foldl_bind {B C : Type} (g : S -> C -> S) (h : B -> list C) (l : list B) (s : S) :
  foldl g s (l ≫= h) = foldl (λ s x, foldl g s (h x)) s l.
Proof.
  revert s. induction l as [|x l IH]; intros s; [reflexivity|].
  rewrite bind_cons, foldl_app. apply IH.
Qed.

Lemma foldl_ext_in {B : Type} (f g : S -> B -> S) (l : list B) (s : S) :
  (forall a x, x ∈ l -> f a x = g a x) -> foldl f s l = foldl g s l.
Proof.
  revert s. induction l as [|x l IH]; intros s Hfg; [reflexivity|]. simpl.
  rewrite Hfg by constructor. apply IH. intros a y Hy. apply Hfg. by constructor.
Qed.

End Loops.

(** A doubly nested accumulation loop is the sum over the pairs it visits. *)
Lemma nested_loops_sum {double : Type} `{!DoubleOps double} (lo hi : Z) (jlo jhi : Z -> Z)
    (f : Z -> Z -> double) (s : double) :
  for_loop lo hi (fun i s => for_loop (jlo i) (jhi i) (fun j s => s ⊕ f i j) s) s
  = foldl dadd s ((λ p, f p.1 p.2) <$>
      (i ← seqZ lo (hi - lo); (λ j, (i, j)) <$> seqZ (jlo i) (jhi i - jlo i))).
Proof.
  rewrite for_loop_foldl, foldl_fmap, foldl_bind.
  apply foldl_ext_in. intros a i _.
  rewrite for_loop_foldl, foldl_fmap. reflexivity.
Qed.

Section TwoSample.

Context {double : Type} `{DoubleOps double}.

Lemma twosampleE_degenerate (D : matrix) (m n : Z) (X Y : list Z) (u : Z) :
  m < 1 \/ n < 1 -> twosampleE D m n X Y u = of_int 0.
Proof.
  intros Hmn. unfold twosampleE.
  destruct (Z.ltb_spec m 1), (Z.ltb_spec n 1); simpl; (reflexivity || lia).
Qed.

Lemma twosampleE_unfold (D : matrix) (m n : Z) (X Y : list Z) (u : Z) :
  1 <= m -> 1 <= n ->
  twosampleE D m n X Y u =
    let sumxx := sum_over D X X (unordered_pairs m) ⊗ (of_int 2 ⊘ of_int (Int.mul m m)) in
    let sumyy := sum_over D Y Y (unordered_pairs n) ⊗ (of_int 2 ⊘ of_int (Int.mul n n)) in
    let sumxx := if decide (u = 1) then sumxx ⊗ (of_int m ⊘ of_int (Int.sub m 1)) else sumxx in
    let sumyy := if decide (u = 1) then sumyy ⊗ (of_int n ⊘ of_int (Int.sub n 1)) else sumyy in
    let sumxy := sum_over D X Y (cross_pairs m n) ⊘ of_int (Int.mul m n) in
    of_int (Int.mul m n) ⊘ of_int (Int.add m n) ⊗ (of_int 2 ⊗ sumxy ⊖ sumxx ⊖ sumyy).
Proof.
  intros Hm Hn. unfold twosampleE.
  destruct (Z.ltb_spec m 1); [lia|]. destruct (Z.ltb_spec n 1); [lia|]. simpl.
  rewrite !nested_loops_sum.
  unfold sum_over, dsum, unordered_pairs, cross_pairs.
  rewrite !Z.sub_0_r.
  destruct (Z.eqb_spec u 1), (decide (u = 1)); try contradiction; reflexivity.
Qed.

(** X17.  [twosampleE] returns [0] when [m < 1] or [n < 1], whatever the
    other size is.  For sizes [1 <= m, n <= 46340], whose products [m*m],
    [n*n] and [m*n] are representable [int]s, it returns
    [(m·n)/(m+n) · (2·sumxy − sumxx − sumyy)], where [sumxy] is the mean of
    [D] over the [m·n] cross pairs and [sumxx], [sumyy] are [2/m²], [2/n²]
    times the sums of [D] over the unordered pairs within each group,
    rescaled by [m/(m−1)], [n/(n−1)] when [unbiased = 1]. *)
Theorem twosampleE_formula (D : matrix) (m n : Z) (xrows yrows : list Z) (unbiased : Z) :
  (m < 1 \/ n < 1) \/ (m <= SQRT_INT_MAX /\ n <= SQRT_INT_MAX) ->
  twosampleE D m n xrows yrows unbiased =
    if decide (m < 1 \/ n < 1) then of_int 0
    else energy_formula D m n xrows yrows unbiased.
Proof.
  unfold SQRT_INT_MAX. intros Hsizes. destruct (decide (m < 1 \/ n < 1)) as [Hd|Hd].
  - by apply twosampleE_degenerate.
  - destruct Hsizes as [Hd'|[Hm Hn]]; [contradiction|].
    rewrite twosampleE_unfold by lia. unfold energy_formula, Int.mul, Int.add, Int.sub.
    rewrite !wrap_int_id; [reflexivity|unfold Int.in_range, Int.INT_MIN, Int.INT_MAX; nia..].
Qed.

End TwoSample.

Lemma twosampleE_formula_witness :
  twosampleE (B64.line_distances [0; 1; 2; 10; 11; 12]) 3 3 [0; 1; 2] [3; 4; 5] 0
  = energy_formula (B64.line_distances [0; 1; 2; 10; 11; 12]) 3 3 [0; 1; 2] [3; 4; 5] 0.
Proof.
  apply (twosampleE_formula (B64.line_distances [0; 1; 2; 10; 11; 12]) 3 3 [0; 1; 2] [3; 4; 5] 0).
  right. unfold SQRT_INT_MAX. lia.
Defined.

(** ** Group offsets *)

Lemma for_loop_snoc {S : Type} (lo hi : Z) (body : Z -> S -> S) (s : S) :
  lo <= hi -> for_loop lo (hi + 1) body s = body hi (for_loop lo hi body s).
Proof.
  intros Hle. rewrite !for_loop_foldl.
  replace (hi + 1 - lo) with ((hi - lo) + 1) by lia.
  rewrite seqZ_app by lia. rewrite foldl_app.
  rewrite (seqZ_cons _ 1), (seqZ_nil _ (Z.pred 1)) by lia. simpl. f_equal. lia.
Qed.

Lemma for_loop_empty {S : Type} (lo hi : Z) (body : Z -> S -> S) (s : S) :
  hi <= lo -> for_loop lo hi body s = s.
Proof. intros Hle. rewrite for_loop_foldl, seqZ_nil by lia. reflexivity. Qed.

Lemma int_at_store_eq (a : list Z) (i v : Z) :
  0 <= i -> (Z.to_nat i < length a)%nat -> int_at (store a i v) i = v.
Proof. intros Hi Hlen. unfold int_at, store. by rewrite list_lookup_insert_eq. Qed.

Lemma int_at_store_ne (a : list Z) (i j v : Z) :
  0 <= i -> 0 <= j -> i <> j -> int_at (store a i v) j = int_at a j.
Proof.
  intros Hi Hj Hne. unfold int_at, store. rewrite list_lookup_insert_ne; [done|lia].
Qed.

Lemma Zsum_app (l k : list Z) : Zsum (l ++ k) = Zsum l + Zsum k.
Proof. unfold Zsum. induction l as [|x l IH]; simpl; lia. Qed.

Lemma Zsum_nonneg (l : list Z) : Forall (λ s, 0 <= s) l -> 0 <= Zsum l.
Proof. unfold Zsum. induction 1; simpl; lia. Qed.

Lemma prefix_sum_succ (sizes : list Z) (k : Z) :
  0 <= k -> prefix_sum sizes (k + 1) = prefix_sum sizes k + int_at sizes k.
Proof.
  intros Hk. unfold prefix_sum, int_at.
  replace (Z.to_nat (k + 1)) with (Datatypes.S (Z.to_nat k)) by lia.
  destruct (sizes !! Z.to_nat k) as [x|] eqn:Hx.
  - rewrite (take_S_r _ _ x) by done. rewrite Zsum_app. simpl. lia.
  - apply lookup_ge_None in Hx. rewrite !take_ge by lia. simpl. lia.
Qed.

Lemma prefix_sum_bounds (sizes : list Z) (k : Z) :
  Forall (λ s, 0 <= s) sizes -> 0 <= prefix_sum sizes k <= Zsum sizes.
Proof.
  intros Hs. unfold prefix_sum.
  rewrite <- (take_drop (Z.to_nat k) sizes) at 3. rewrite Zsum_app.
  pose proof (Zsum_nonneg (take (Z.to_nat k) sizes)) as H1.
  pose proof (Zsum_nonneg (drop (Z.to_nat k) sizes)) as H2.
  specialize (H1 (Forall_take _ _ _ Hs)). specialize (H2 (Forall_drop _ _ _ Hs)). lia.
Qed.

(** After the loop of [multisampleE], [M[k]] is the [k]-th prefix sum. *)
Lemma group_offsets_prefix (K : Z) (sizes : list Z) (k : Z) :
  Forall (λ s, 0 <= s) sizes -> Zsum sizes <= Int.INT_MAX ->
  0 <= k < K -> int_at (group_offsets K sizes) k = prefix_sum sizes k.
Proof.
  intros Hs Hsum Hk. unfold group_offsets.
  set (M0 := store (replicate (Z.to_nat K) 0) 0 0).
  set (body := fun k M => store M k (Int.add (int_at M (k - 1)) (int_at sizes (k - 1)))).
  assert (Hinv : forall n : nat, Z.of_nat n < K ->
            length (for_loop 1 (1 + Z.of_nat n) body M0) = Z.to_nat K /\
            forall t, 0 <= t <= Z.of_nat n ->
              int_at (for_loop 1 (1 + Z.of_nat n) body M0) t = prefix_sum sizes t).
  { induction n as [|n IH]; intros Hn.
    - simpl. rewrite for_loop_empty by lia. unfold M0, store.
      rewrite length_insert, length_replicate. split; [done|].
      intros t Ht. replace t with 0 by lia.
      unfold int_at. rewrite list_lookup_insert_eq by (rewrite length_replicate; lia).
      reflexivity.
    - destruct IH as [Hlen Hrd]; [lia|].
      replace (1 + Z.of_nat (Datatypes.S n)) with ((1 + Z.of_nat n) + 1) by lia.
      rewrite for_loop_snoc by lia.
      set (M := for_loop 1 (1 + Z.of_nat n) body M0) in *.
      unfold body. split.
      + unfold store. by rewrite length_insert.
      + intros t Ht. destruct (decide (t = 1 + Z.of_nat n)) as [->|Hne].
        * rewrite int_at_store_eq by lia.
          replace (1 + Z.of_nat n - 1) with (Z.of_nat n) by lia.
          replace (1 + Z.of_nat n) with (Z.of_nat n + 1) by lia.
          rewrite Hrd by lia. rewrite prefix_sum_succ by lia.
          unfold Int.add. rewrite wrap_int_id; [f_equal; lia|].
          pose proof (prefix_sum_bounds sizes (Z.of_nat n + 1) Hs) as Hb.
          rewrite prefix_sum_succ in Hb by lia.
          unfold Int.in_range, Int.INT_MIN, Int.INT_MAX in *. lia.
        * rewrite int_at_store_ne by lia. apply Hrd. lia. }
  destruct (Hinv (Z.to_nat (K - 1))) as [_ Hrd]; [lia|].
  replace (1 + Z.of_nat (Z.to_nat (K - 1))) with K in Hrd by lia.
  apply Hrd. lia.
Qed.

(** ** The multi-sample statistic *)

Lemma elem_of_unordered_pairs (m i j : Z) :
  (i, j) ∈ unordered_pairs m -> 0 <= i /\ i < j /\ j < m.
Proof.
  unfold unordered_pairs. intros Hin.
  apply list_elem_of_bind in Hin as (a & Hj & Ha).
  apply list_elem_of_fmap in Hj as (b & Heq & Hb).
  apply elem_of_seqZ in Ha, Hb. injection Heq as -> ->. lia.
Qed.

Lemma elem_of_cross_pairs (m n i j : Z) :
  (i, j) ∈ cross_pairs m n -> (0 <= i /\ i < m) /\ (0 <= j /\ j < n).
Proof.
  unfold cross_pairs. intros Hin.
  apply list_elem_of_bind in Hin as (a & Hj & Ha).
  apply list_elem_of_fmap in Hj as (b & Heq & Hb).
  apply elem_of_seqZ in Ha, Hb. injection Heq as -> ->. lia.
Qed.

Lemma int_at_take (X : list Z) (m i : Z) :
  0 <= i < m -> int_at (take (Z.to_nat m) X) i = int_at X i.
Proof. intros Hi. unfold int_at. rewrite lookup_take_lt by lia. reflexivity. Qed.

Section MultiSample.

Context {double : Type} `{DoubleOps double}.

Lemma sum_over_ext (D : matrix) (rows cols rows' cols' : list Z) (ps : list (Z * Z)) :
  (forall i j, (i, j) ∈ ps -> int_at rows i = int_at rows' i /\ int_at cols j = int_at cols' j) ->
  sum_over D rows cols ps = sum_over D rows' cols' ps.
Proof.
  intros Hext. unfold sum_over. f_equal. apply list_fmap_ext.
  intros k [i j] Hk. apply list_elem_of_lookup_2 in Hk. simpl.
  destruct (Hext i j Hk) as [-> ->]. reflexivity.
Qed.

(** [twosampleE] reads the first [m] entries of [xrows] and the first [n]
    entries of [yrows] only. *)
Lemma twosampleE_take (D : matrix) (m n : Z) (X Y : list Z) (u : Z) :
  twosampleE D m n (take (Z.to_nat m) X) (take (Z.to_nat n) Y) u = twosampleE D m n X Y u.
Proof.
  destruct (decide (m < 1 \/ n < 1)) as [Hd|Hd].
  - by rewrite !twosampleE_degenerate.
  - rewrite !twosampleE_unfold by lia. cbv zeta.
    rewrite (sum_over_ext D (take (Z.to_nat m) X) (take (Z.to_nat m) X) X X).
    2:{ intros i j Hij%elem_of_unordered_pairs. rewrite !int_at_take by lia. done. }
    rewrite (sum_over_ext D (take (Z.to_nat n) Y) (take (Z.to_nat n) Y) Y Y).
    2:{ intros i j Hij%elem_of_unordered_pairs. rewrite !int_at_take by lia. done. }
    rewrite (sum_over_ext D (take (Z.to_nat m) X) (take (Z.to_nat n) Y) X Y).
    2:{ intros i j Hij%elem_of_cross_pairs. rewrite !int_at_take by lia. done. }
    reflexivity.
Qed.

Lemma multisampleE_unfold (D : matrix) (K : Z) (sizes perm : list Z) (u : Z) :
  multisampleE D K sizes perm u =
    dsum ((λ p, twosampleE D (int_at sizes p.1) (int_at sizes p.2)
                  (offset perm (int_at (group_offsets K sizes) p.1))
                  (offset perm (int_at (group_offsets K sizes) p.2)) u)
          <$> unordered_pairs K).
Proof.
  unfold multisampleE. cbv zeta. rewrite nested_loops_sum.
  unfold dsum, unordered_pairs. rewrite Z.sub_0_r. reflexivity.
Qed.

(** C2.  [multisampleE] is the sum of [twosampleE] over the pairs of groups
    [(i, j)], [i < j < K], group [k] being the slice of the permutation
    array of length [sizes[k]] at the offset [M[k]], the [k]-th prefix sum
    of the sizes.  The sizes are non-negative and their sum is an [int]. *)
Theorem multisampleE_pairwise_sum (D : matrix) (K : Z) (sizes perm : list Z) (unbiased : Z) :
  Forall (λ s, 0 <= s) sizes -> Zsum sizes <= Int.INT_MAX ->
  multisampleE D K sizes perm unbiased = multisample_formula D K sizes perm unbiased.
Proof.
  intros Hs Hsum. rewrite multisampleE_unfold. unfold multisample_formula.
  f_equal. apply list_fmap_ext. intros k [i j] Hk.
  apply list_elem_of_lookup_2, elem_of_unordered_pairs in Hk. simpl.
  rewrite !group_offsets_prefix by (done || lia).
  unfold group_slice, offset. by rewrite twosampleE_take.
Qed.

End MultiSample.

Lemma multisampleE_pairwise_sum_witness :
  multisampleE (B64.line_distances [0; 1; 2; 10; 11; 12; 20]) 3 [3; 3; 1] [4; 0; 6; 2; 1; 5; 3] 0
  = multisample_formula (B64.line_distances [0; 1; 2; 10; 11; 12; 20]) 3 [3; 3; 1]
      [4; 0; 6; 2; 1; 5; 3] 0.
Proof.
  apply (multisampleE_pairwise_sum (B64.line_distances [0; 1; 2; 10; 11; 12; 20]) 3
           [3; 3; 1] [4; 0; 6; 2; 1; 5; 3] 0).
  - repeat constructor; lia.
  - vm_compute. discriminate.
Defined.

(** ** Binary64 results *)

Section Binary64.

Lemma SFsub_nan_l (y : spec_float) : SFsub B64.prec B64.emax S754_nan y = S754_nan.
Proof. reflexivity. Qed.

Lemma SFsub_nan_r (x : spec_float) : SFsub B64.prec B64.emax x S754_nan = S754_nan.
Proof. by destruct x. Qed.

Lemma SFmul_nan_r (x : spec_float) : SFmul B64.prec B64.emax x S754_nan = S754_nan.
Proof. by destruct x. Qed.

Lemma SFadd_zero_l (x : spec_float) :
  x <> neg_zero -> SFadd B64.prec B64.emax (S754_zero false) x = x.
Proof. unfold neg_zero. destruct x as [[]| | |]; intros Hx; try reflexivity. done. Qed.

Lemma SFadd_zero_neg_zero :
  SFadd B64.prec B64.emax (S754_zero false) neg_zero = S754_zero false.
Proof. reflexivity. Qed.

End Binary64.

Lemma group_offsets_two (m n : Z) : group_offsets 2 [m; n] = [0; Int.add 0 m].
Proof. reflexivity. Qed.

Lemma multisampleE_two {double : Type} `{!DoubleOps double} (D : matrix) (m n : Z) (perm : list Z) (u : Z) :
  multisampleE D 2 [m; n] perm u
  = of_int 0 ⊕ twosampleE D m n perm (offset perm (Int.add 0 m)) u.
Proof.
  rewrite multisampleE_unfold, group_offsets_two.
  change (unordered_pairs 2) with [(0, 1)]. reflexivity.
Qed.

(** C5.  With [K = 2], [multisampleE] is [0.0 + twosampleE(D, m, n, perm,
    perm + m, unbiased)]: the value of the single [twosampleE] call on the
    slices at offsets [0] and [m].  The two doubles are identical unless
    the call returns [-0.0], which the addition to [0.0] turns into
    [+0.0]. *)
Theorem multisampleE_two_groups (D : matrix) (m n : Z) (perm : list Z) (unbiased : Z) :
  Int.in_range m ->
  same_double (multisampleE D 2 [m; n] perm unbiased)
              (twosampleE D m n perm (offset perm m) unbiased)
  /\ (twosampleE D m n perm (offset perm m) unbiased <> neg_zero ->
      multisampleE D 2 [m; n] perm unbiased = twosampleE D m n perm (offset perm m) unbiased).
Proof.
  intros Hm. rewrite multisampleE_two. unfold Int.add. rewrite Z.add_0_l, wrap_int_id by done.
  set (r := twosampleE D m n perm (offset perm m) unbiased).
  change (of_int 0 ⊕ r) with (SFadd B64.prec B64.emax (S754_zero false) r).
  clearbody r. split.
  - destruct r as [[|]| | |]; (by left) || (by right).
  - apply SFadd_zero_l.
Qed.

Lemma multisampleE_two_groups_witness :
  same_double
    (multisampleE (B64.line_distances [0; 1; 2; 10; 11; 12]) 2 [3; 3] [5; 0; 3; 1; 4; 2] 0)
    (twosampleE (B64.line_distances [0; 1; 2; 10; 11; 12]) 3 3 [5; 0; 3; 1; 4; 2]
       (offset [5; 0; 3; 1; 4; 2] 3) 0).
Proof.
  apply (multisampleE_two_groups (B64.line_distances [0; 1; 2; 10; 11; 12]) 3 3
           [5; 0; 3; 1; 4; 2] 0).
  unfold Int.in_range, Int.INT_MIN, Int.INT_MAX. lia.
Defined.

(** The sign of a zero: on a matrix with a negative entry (so not a matrix
    of distances), here [-2^-1074] between the first two points, the call
    returns [-0.0] and [multisampleE] returns [+0.0]. *)
Example multisampleE_two_groups_signed_zero :
  twosampleE [[S754_zero false; S754_finite true 1 (-1074); S754_zero false];
              [S754_finite true 1 (-1074); S754_zero false; S754_zero false];
              [S754_zero false; S754_zero false; S754_zero false]]
    1 2 [0; 1; 2] (offset [0; 1; 2] 1) 0 = S754_zero true
  /\ multisampleE [[S754_zero false; S754_finite true 1 (-1074); S754_zero false];
                   [S754_finite true 1 (-1074); S754_zero false; S754_zero false];
                   [S754_zero false; S754_zero false; S754_zero false]]
       2 [1; 2] [0; 1; 2] 0 = S754_zero false.
Proof. split; vm_compute; reflexivity. Qed.

(** C7.  With [unbiased = 1] and a group of size one, the bias correction
    divides by [(double) 0]: the quotient is [+inf], its product with the
    empty within-group sum is NaN, and [twosampleE] returns NaN. *)
Theorem twosampleE_singleton_unbiased (D : matrix) (m n : Z) (xrows yrows : list Z) :
  1 <= m -> 1 <= n -> m = 1 \/ n = 1 ->
  of_int 1 ⊘ of_int (Int.sub 1 1) = pos_infinity
  /\ twosampleE D m n xrows yrows 1 = NaN.
Proof.
  intros Hm Hn Hone. split; [reflexivity|].
  rewrite twosampleE_unfold by done. cbv zeta.
  destruct (decide (1 = 1)) as [_|]; [|done].
  destruct Hone as [->| ->].
  - set (sumxx := sum_over D xrows xrows (unordered_pairs 1) ⊗ _ ⊗ _).
    assert (Hxx : sumxx = S754_nan) by reflexivity. rewrite Hxx.
    change dsub with (SFsub B64.prec B64.emax). change dmul with (SFmul B64.prec B64.emax).
    by rewrite SFsub_nan_r, SFsub_nan_l, SFmul_nan_r.
  - set (sumyy := sum_over D yrows yrows (unordered_pairs 1) ⊗ _ ⊗ _).
    assert (Hyy : sumyy = S754_nan) by reflexivity. rewrite Hyy.
    change dsub with (SFsub B64.prec B64.emax). change dmul with (SFmul B64.prec B64.emax).
    by rewrite SFsub_nan_r, SFmul_nan_r.
Qed.

Lemma twosampleE_singleton_unbiased_witness :
  twosampleE (B64.line_distances [0; 1; 2; 10; 11; 12]) 1 3 [0] [3; 4; 5] 1 = NaN.
Proof.
  apply (twosampleE_singleton_unbiased (B64.line_distances [0; 1; 2; 10; 11; 12]) 1 3
           [0] [3; 4; 5]); lia.
Defined.

(** ** Real-arithmetic results *)

Section RealSums.

Lemma foldl_Rplus (s : R) (l : list R) : foldl Rplus s l = (s + Rsum l)%R.
Proof.
  revert s. induction l as [|x l IH]; intros s; simpl.
  - ring.
  - rewrite IH. ring.
Qed.

Lemma dsum_Rsum (l : list R) : dsum l = Rsum l.
Proof. unfold dsum. simpl. rewrite foldl_Rplus. ring. Qed.

Lemma Rsum_Permutation (l k : list R) : l ≡ₚ k -> Rsum l = Rsum k.
Proof.
  induction 1 as [|x l k _ IH|x y l|l k k' _ IH1 _ IH2]; simpl.
  - reflexivity.
  - by rewrite IH.
  - ring.
  - by rewrite IH1.
Qed.

Lemma Rsum_fmap_Permutation {A : Type} (f : A -> R) (l k : list A) :
  l ≡ₚ k -> Rsum (f <$> l) = Rsum (f <$> k).
Proof. intros Hp. apply Rsum_Permutation. by rewrite Hp. Qed.

End RealSums.

(** Index pairs: membership, absence of duplicates, and the effect of
    exchanging the two components. *)
Section Pairs.

Lemma elem_of_pairs (l : list Z) (js : Z -> list Z) (i j : Z) :
  (i, j) ∈ (a ← l; (λ b, (a, b)) <$> js a) <-> i ∈ l /\ j ∈ js i.
Proof.
  rewrite list_elem_of_bind. split.
  - intros (a & Hj & Ha). apply list_elem_of_fmap in Hj as (b & Heq & Hb).
    injection Heq as -> ->. done.
  - intros [Hi Hj]. exists i. split; [|done]. apply list_elem_of_fmap. by exists j.
Qed.

Lemma NoDup_pairs (l : list Z) (js : Z -> list Z) :
  NoDup l -> (forall a, NoDup (js a)) -> NoDup (a ← l; (λ b, (a, b)) <$> js a).
Proof.
  intros Hl Hjs. apply NoDup_bind; [| |done].
  - intros a1 a2 [i j] _ _ H1 H2.
    apply list_elem_of_fmap in H1 as (b1 & Heq1 & _).
    apply list_elem_of_fmap in H2 as (b2 & Heq2 & _). congruence.
  - intros a _. apply NoDup_fmap_2_strong; [|done]. intros b1 b2 _ _. congruence.
Qed.

Lemma cross_pairs_swap (m n : Z) : prod_swap <$> cross_pairs m n ≡ₚ cross_pairs n m.
Proof.
  apply NoDup_Permutation.
  - apply NoDup_fmap_2; [apply _|]. apply NoDup_pairs; [apply NoDup_seqZ|].
    intros a. apply NoDup_seqZ.
  - apply NoDup_pairs; [apply NoDup_seqZ|]. intros a. apply NoDup_seqZ.
  - intros [j i]. unfold cross_pairs. rewrite list_elem_of_fmap, elem_of_pairs. split.
    + intros ([i' j'] & Heq & Hin). apply elem_of_pairs in Hin.
      simpl in Heq. injection Heq as -> ->. tauto.
    + intros [Hj Hi]. exists (i, j). split; [done|]. by apply elem_of_pairs.
Qed.

End Pairs.

Section RealTwoSample.

Lemma cross_sum_swap (D : matrix) (m n : Z) (X Y : list Z) :
  symmetric D -> sum_over D X Y (cross_pairs m n) = sum_over D Y X (cross_pairs n m).
Proof.
  intros Hsym. unfold sum_over. rewrite !dsum_Rsum.
  rewrite <- (Rsum_fmap_Permutation _ _ _ (cross_pairs_swap m n)).
  rewrite <- list_fmap_compose. f_equal. apply list_fmap_ext.
  intros k [i j] _. simpl. apply Hsym.
Qed.

(** C6, in real arithmetic.  For a symmetric [D], exchanging the two groups
    leaves the statistic unchanged. *)
Theorem twosampleE_swap_real (D : matrix) (m n : Z) (X Y : list Z) (unbiased : Z) :
  symmetric D ->
  twosampleE (double := R) D m n X Y unbiased = twosampleE (double := R) D n m Y X unbiased.
Proof.
  intros Hsym. destruct (decide (m < 1 \/ n < 1)) as [Hd|Hd].
  - rewrite !twosampleE_degenerate by tauto. reflexivity.
  - rewrite !twosampleE_unfold by lia. cbv zeta.
    rewrite (cross_sum_swap D m n X Y Hsym).
    unfold Int.mul, Int.add. rewrite (Z.mul_comm n m), (Z.add_comm n m).
    simpl. ring.
Qed.

End RealTwoSample.

Lemma twosampleE_swap_real_witness :
  twosampleE (double := R) (real_line_distances [0; 2; 1; 3; 4]) 2 3 [0; 1] [2; 3; 4] 0
  = twosampleE (double := R) (real_line_distances [0; 2; 1; 3; 4]) 3 2 [2; 3; 4] [0; 1] 0.
Proof.
  apply (twosampleE_swap_real (real_line_distances [0; 2; 1; 3; 4]) 2 3 [0; 1] [2; 3; 4] 0).
  solve_symmetric.
Defined.

(** C6 as stated, in binary64: for the points [0, 2 | 1, 3, 4] on a line,
    [twosampleE(D, 2, 3, X, Y, 0)] is [2.0] and [twosampleE(D, 3, 2, Y, X, 0)]
    is [2.0000000000000004]: the two calls subtract the within-group terms
    in opposite orders, and the roundings differ. *)
Lemma twosampleE_swap_binary64_differs :
  symmetric (B64.line_distances [0; 2; 1; 3; 4])
  /\ twosampleE (B64.line_distances [0; 2; 1; 3; 4]) 2 3 [0; 1] [2; 3; 4] 0
     = S754_finite false 4503599627370496 (-51)
  /\ twosampleE (B64.line_distances [0; 2; 1; 3; 4]) 3 2 [2; 3; 4] [0; 1] 0
     = S754_finite false 4503599627370497 (-51)
  /\ ~ (forall (D : matrix) (m n : Z) (X Y : list Z) (u : Z),
          symmetric D ->
          twosampleE (double := spec_float) D m n X Y u = twosampleE D n m Y X u).
Proof.
  assert (Hsym : symmetric (B64.line_distances [0; 2; 1; 3; 4])) by solve_symmetric.
  split; [exact Hsym|]. split; [vm_compute; reflexivity|]. split; [vm_compute; reflexivity|].
  intros Hall.
  specialize (Hall (B64.line_distances [0; 2; 1; 3; 4]) 2 3 [0; 1] [2; 3; 4] 0 Hsym).
  vm_compute in Hall. discriminate Hall.
Qed.

(** ** The concrete scenario of the specification

    Two groups of three points on a line, [{0, 1, 2}] and [{10, 11, 12}],
    [unbiased = 0]: [sumxy = 10], [sumxx = sumyy = 8/9], and
    [E = 1.5 · (20 − 16/9) = 82/3 = 27.333...]. *)

Example concrete_scenario_real :
  twosampleE (double := R) (real_line_distances [0; 1; 2; 10; 11; 12]) 3 3
    [0; 1; 2] [3; 4; 5] 0
  = (82 / 3)%R.
Proof.
  rewrite twosampleE_unfold by lia. cbv zeta.
  destruct (decide (0 = 1)) as [?|_]; [lia|].
  change (sum_over _ [0; 1; 2] [3; 4; 5] (cross_pairs 3 3))
    with (dsum (IZR <$> [10; 11; 12; 9; 10; 11; 8; 9; 10])).
  change (sum_over _ [0; 1; 2] [0; 1; 2] (unordered_pairs 3)) with (dsum (IZR <$> [1; 2; 1])).
  change (sum_over _ [3; 4; 5] [3; 4; 5] (unordered_pairs 3)) with (dsum (IZR <$> [1; 2; 1])).
  rewrite !dsum_Rsum. simpl.
  change (IZR (Int.mul 3 3)) with 9%R. change (IZR (Int.add 3 3)) with 6%R. lra.
Qed.

(** In binary64 the result is [27.333333333333332]. *)
Example concrete_scenario_binary64 :
  twosampleE (B64.line_distances [0; 1; 2; 10; 11; 12]) 3 3 [0; 1; 2] [3; 4; 5] 0
  = S754_finite false 7693649363424597 (-48).
Proof. vm_compute. reflexivity. Qed.

(** ** [E2sample] against the distance matrix, in real arithmetic *)

Section RealE2sample.

(** A sum over index pairs may be taken over any other enumeration of the
    same pairs. *)
Lemma Rsum_reindex (f g : Z * Z -> R) (φ : Z * Z -> Z * Z) (l k : list (Z * Z)) :
  NoDup l -> NoDup k ->
  (forall p q, p ∈ l -> q ∈ l -> φ p = φ q -> p = q) ->
  (forall q, q ∈ k <-> exists p, q = φ p /\ p ∈ l) ->
  (forall p, p ∈ l -> f p = g (φ p)) ->
  Rsum (f <$> l) = Rsum (g <$> k).
Proof.
  intros Hl Hk Hinj Hmem Hfg.
  assert (Hperm : φ <$> l ≡ₚ k).
  { apply NoDup_Permutation; [by apply NoDup_fmap_2_strong|done|].
    intros q. rewrite list_elem_of_fmap. symmetry. apply Hmem. }
  rewrite <- (Rsum_fmap_Permutation g _ _ Hperm), <- list_fmap_compose.
  f_equal. apply list_fmap_ext. intros i p Hp. apply Hfg.
  by apply list_elem_of_lookup_2 in Hp.
Qed.

Lemma row_distance_sym (x : list R) (d i j : Z) : row_distance x d i j = row_distance x d j i.
Proof.
  unfold row_distance. do 2 f_equal. apply list_fmap_ext. intros _ k _. simpl. ring.
Qed.

Lemma D_at_Euclidean_distance {double : Type} `{!DoubleOps double}
    (x : list double) (N d i j : Z) :
  0 <= i < N -> 0 <= j < N -> D_at (Euclidean_distance x N d) i j = row_distance x d i j.
Proof.
  intros Hi Hj. unfold D_at, dbl_at, Euclidean_distance, matrix.
  rewrite list_lookup_fmap, lookup_seqZ_lt by lia. simpl.
  rewrite list_lookup_fmap, lookup_seqZ_lt by lia. simpl.
  f_equal; lia.
Qed.

Lemma int_at_seqZ (lo len i : Z) : 0 <= i < len -> int_at (seqZ lo len) i = lo + i.
Proof. intros Hi. unfold int_at. rewrite lookup_seqZ_lt by lia. simpl. lia. Qed.

(** The inner loop of [E2sample] is the squared row distance. *)
Lemma E2sample_dist {double : Type} `{!DoubleOps double} (x : list double) (d i j : Z) :
  Int.in_range (i * d) -> Int.in_range (j * d) ->
  dsqrt (for_loop 0 d (fun k dsum =>
           let dif := dbl_at x (Int.mul i d + k) ⊖ dbl_at x (Int.mul j d + k) in
           dsum ⊕ dif ⊗ dif) (of_int 0))
  = row_distance x d i j.
Proof.
  intros Hi Hj. unfold row_distance, dsum, Int.mul. rewrite !wrap_int_id by done.
  rewrite for_loop_foldl, foldl_fmap, Z.sub_0_r. reflexivity.
Qed.

End RealE2sample.

Lemma elem_of_loop_pairs (lo hi : Z) (jlo jhi : Z -> Z) (i j : Z) :
  (i, j) ∈ loop_pairs lo hi jlo jhi <-> (lo <= i < hi) /\ (jlo i <= j < jhi i).
Proof. unfold loop_pairs. rewrite elem_of_pairs, !elem_of_seqZ. lia. Qed.

Lemma NoDup_loop_pairs (lo hi : Z) (jlo jhi : Z -> Z) : NoDup (loop_pairs lo hi jlo jhi).
Proof. apply NoDup_pairs; [apply NoDup_seqZ|]. intros a. apply NoDup_seqZ. Qed.

Section E2sampleLoops.

Context {double : Type} `{!DoubleOps double}.

Lemma dsum_fmap_ext {A : Type} (f g : A -> double) (l : list A) :
  (forall a, a ∈ l -> f a = g a) -> dsum (f <$> l) = dsum (g <$> l).
Proof.
  intros Hfg. f_equal. apply list_fmap_ext. intros i a Ha. apply Hfg.
  by apply list_elem_of_lookup_2 in Ha.
Qed.

(** A loop nest of [E2sample] sums the row distances over its pairs. *)
Lemma E2sample_nest (x : list double) (d lo hi : Z) (jlo jhi : Z -> Z) :
  (forall i j, (i, j) ∈ loop_pairs lo hi jlo jhi ->
     Int.in_range (i * d) /\ Int.in_range (j * d)) ->
  for_loop lo hi (fun i s =>
    for_loop (jlo i) (jhi i) (fun j s =>
      s ⊕ dsqrt (for_loop 0 d (fun k dsum =>
                   dsum ⊕ (dbl_at x (Int.mul i d + k) ⊖ dbl_at x (Int.mul j d + k))
                          ⊗ (dbl_at x (Int.mul i d + k) ⊖ dbl_at x (Int.mul j d + k)))
                   (of_int 0))) s) (of_int 0)
  = dsum ((λ p, row_distance x d p.1 p.2) <$> loop_pairs lo hi jlo jhi).
Proof.
  intros Hrange.
  rewrite (nested_loops_sum lo hi jlo jhi (fun i j =>
    dsqrt (for_loop 0 d (fun k dsum =>
             dsum ⊕ (dbl_at x (Int.mul i d + k) ⊖ dbl_at x (Int.mul j d + k))
                    ⊗ (dbl_at x (Int.mul i d + k) ⊖ dbl_at x (Int.mul j d + k)))
             (of_int 0)))).
  fold (loop_pairs lo hi jlo jhi).
  apply (dsum_fmap_ext _ (λ p, row_distance x d p.1 p.2)).
  intros [i j] Hij. destruct (Hrange i j Hij). by apply E2sample_dist.
Qed.

Lemma E2sample_unfold (x : list double) (m n d : Z) :
  1 <= m -> 1 <= n -> 1 <= d -> (m + n) * d <= Int.INT_MAX ->
  E2sample x [m; n] d =
    let sumxy := dsum ((λ p, row_distance x d p.1 p.2) <$> block_pairs m n)
                 ⊘ of_int (Int.mul m n) in
    let sumxx := dsum ((λ p, row_distance x d p.1 p.2) <$> lower_pairs 0 m)
                 ⊘ of_int (Int.mul m m) in
    let sumyy := dsum ((λ p, row_distance x d p.1 p.2) <$> lower_pairs m (m + n))
                 ⊘ of_int (Int.mul n n) in
    of_int 2 ⊗ (of_int (Int.mul m n) ⊘ of_int (Int.add m n)) ⊗ (sumxy ⊖ sumxx ⊖ sumyy).
Proof.
  intros Hm Hn Hd Hmax. unfold Int.INT_MAX in Hmax.
  assert (Hrange : forall i, 0 <= i < m + n -> Int.in_range (i * d)).
  { intros i Hi. unfold Int.in_range, Int.INT_MIN, Int.INT_MAX. nia. }
  unfold E2sample.
  change (int_at [m; n] 0) with m. change (int_at [m; n] 1) with n. cbv zeta.
  assert (Hmn : Int.add m n = m + n).
  { apply wrap_int_id. unfold Int.in_range, Int.INT_MIN, Int.INT_MAX. nia. }
  assert (Hm1 : Int.add m 1 = m + 1).
  { apply wrap_int_id. unfold Int.in_range, Int.INT_MIN, Int.INT_MAX. nia. }
  rewrite (E2sample_nest x d 0 m (λ _, m) (λ _, Int.add m n)).
  2:{ intros i j Hij%elem_of_loop_pairs. split; apply Hrange; lia. }
  rewrite (E2sample_nest x d 1 m (λ _, 0) (λ i, i)).
  2:{ intros i j Hij%elem_of_loop_pairs. split; apply Hrange; lia. }
  rewrite (E2sample_nest x d (Int.add m 1) (Int.add m n) (λ _, m) (λ i, i)).
  2:{ intros i j Hij%elem_of_loop_pairs. split; apply Hrange; lia. }
  rewrite !Hmn, !Hm1. reflexivity.
Qed.

End E2sampleLoops.

Lemma cross_pairs_loop (m n : Z) : cross_pairs m n = loop_pairs 0 m (λ _, 0) (λ _, n).
Proof. unfold cross_pairs, loop_pairs. by rewrite !Z.sub_0_r. Qed.

Lemma unordered_pairs_loop (m : Z) : unordered_pairs m = loop_pairs 0 m (λ i, i + 1) (λ _, m).
Proof. unfold unordered_pairs, loop_pairs. by rewrite !Z.sub_0_r. Qed.

Section RealE2sampleMain.

Variables (x : list R) (m n d : Z).
Hypotheses (Hm : 1 <= m) (Hn : 1 <= n).

Local Abbreviation D := (Euclidean_distance x (m + n) d).

Lemma E2sample_cross_sum :
  sum_over D (seqZ 0 m) (seqZ m n) (cross_pairs m n)
  = dsum ((λ p, row_distance x d p.1 p.2) <$> block_pairs m n).
Proof.
  unfold sum_over. rewrite !dsum_Rsum, cross_pairs_loop.
  apply (Rsum_reindex _ _ (λ p, (p.1, m + p.2))).
  - apply NoDup_loop_pairs.
  - apply NoDup_loop_pairs.
  - intros [i j] [i' j'] _ _. simpl. intros Heq. injection Heq as -> ?. f_equal. lia.
  - intros [i j]. unfold block_pairs. rewrite elem_of_loop_pairs. split.
    + intros Hij. exists (i, j - m). simpl. split; [f_equal; lia|].
      apply elem_of_loop_pairs. lia.
    + intros ([i' j'] & Heq & Hin%elem_of_loop_pairs). simpl in Heq.
      injection Heq as -> ->. lia.
  - intros [i j] Hij%elem_of_loop_pairs. simpl.
    rewrite !int_at_seqZ by lia. rewrite D_at_Euclidean_distance by lia.
    f_equal; lia.
Qed.

Lemma E2sample_within_sum_x :
  sum_over D (seqZ 0 m) (seqZ 0 m) (unordered_pairs m)
  = dsum ((λ p, row_distance x d p.1 p.2) <$> lower_pairs 0 m).
Proof.
  unfold sum_over. rewrite !dsum_Rsum, unordered_pairs_loop.
  apply (Rsum_reindex _ _ prod_swap).
  - apply NoDup_loop_pairs.
  - apply NoDup_loop_pairs.
  - intros p q _ _. apply (inj prod_swap).
  - intros [i j]. unfold lower_pairs. rewrite elem_of_loop_pairs. split.
    + intros Hij. exists (j, i). split; [done|]. apply elem_of_loop_pairs. lia.
    + intros ([i' j'] & Heq & Hin%elem_of_loop_pairs). simpl in Heq.
      injection Heq as -> ->. lia.
  - intros [i j] Hij%elem_of_loop_pairs. simpl.
    rewrite !int_at_seqZ by lia. rewrite D_at_Euclidean_distance by lia.
    rewrite !Z.add_0_l. apply row_distance_sym.
Qed.

Lemma E2sample_within_sum_y :
  sum_over D (seqZ m n) (seqZ m n) (unordered_pairs n)
  = dsum ((λ p, row_distance x d p.1 p.2) <$> lower_pairs m (m + n)).
Proof.
  unfold sum_over. rewrite !dsum_Rsum, unordered_pairs_loop.
  apply (Rsum_reindex _ _ (λ p, (m + p.2, m + p.1))).
  - apply NoDup_loop_pairs.
  - apply NoDup_loop_pairs.
  - intros [i j] [i' j'] _ _. simpl. intros Heq. injection Heq as ? ?. f_equal; lia.
  - intros [i j]. unfold lower_pairs. rewrite elem_of_loop_pairs. split.
    + intros Hij. exists (j - m, i - m). simpl. split; [f_equal; lia|].
      apply elem_of_loop_pairs. lia.
    + intros ([i' j'] & Heq & Hin%elem_of_loop_pairs). simpl in Heq.
      injection Heq as -> ->. lia.
  - intros [i j] Hij%elem_of_loop_pairs. simpl.
    rewrite !int_at_seqZ by lia. rewrite D_at_Euclidean_distance by lia.
    apply row_distance_sym.
Qed.

(** C10, in real arithmetic.  For a pooled sample [x] in row order with
    [m, n >= 1] rows of dimension [d >= 1] (the row offsets being
    representable [int]s), [E2sample] returns what [twosampleE] returns,
    with [unbiased = 0], on the Euclidean distance matrix of [x] and the
    index ranges [0..m-1] and [m..m+n-1]. *)
Theorem E2sample_distance_matrix_real :
  1 <= d -> (m + n) * d <= Int.INT_MAX ->
  E2sample x [m; n] d
  = twosampleE (Euclidean_distance x (m + n) d) m n (seqZ 0 m) (seqZ m n) 0.
Proof.
  intros Hd Hmax.
  rewrite E2sample_unfold, twosampleE_unfold by done. cbv zeta.
  destruct (decide (0 = 1)) as [|_]; [done|].
  rewrite E2sample_cross_sum, E2sample_within_sum_x, E2sample_within_sum_y.
  simpl. unfold Rdiv. ring.
Qed.

End RealE2sampleMain.

Lemma E2sample_distance_matrix_real_witness :
  E2sample (IZR <$> [0; 2; 1; 3; 8]) [2; 3] 1
  = twosampleE (Euclidean_distance (IZR <$> [0; 2; 1; 3; 8]) (2 + 3) 1) 2 3
      (seqZ 0 2) (seqZ 2 3) 0.
Proof.
  apply (E2sample_distance_matrix_real (IZR <$> [0; 2; 1; 3; 8]) 2 3 1);
    unfold Int.INT_MAX; lia.
Defined.

(** C10 as stated, in binary64: for the rows [0, 2 | 1, 3, 8] of dimension
    one the distance matrix holds the exact distances [|a - b|], yet
    [E2sample] returns [3.0666666666666669] and [twosampleE]
    [3.0666666666666673]: [E2sample] halves the within-group sums and
    doubles the weight, [twosampleE] scales the sums by [2/m²], and the
    roundings differ. *)
Lemma E2sample_binary64_differs :
  Euclidean_distance (of_int <$> [0; 2; 1; 3; 8]) 5 1 = B64.line_distances [0; 2; 1; 3; 8]
  /\ E2sample (of_int <$> [0; 2; 1; 3; 8]) [2; 3] 1
     = S754_finite false 6905519428634761 (-51)
  /\ twosampleE (Euclidean_distance (of_int <$> [0; 2; 1; 3; 8]) 5 1) 2 3
       (seqZ 0 2) (seqZ 2 3) 0
     = S754_finite false 6905519428634762 (-51)
  /\ ~ (forall (x : list spec_float) (m n d : Z),
          1 <= m -> 1 <= n -> 1 <= d ->
          E2sample x [m; n] d
          = twosampleE (Euclidean_distance x (m + n) d) m n (seqZ 0 m) (seqZ m n) 0).
Proof.
  split; [vm_compute; reflexivity|]. split; [vm_compute; reflexivity|].
  split; [vm_compute; reflexivity|].
  intros Hall.
  specialize (Hall (of_int <$> [0; 2; 1; 3; 8]) 2 3 1 ltac:(lia) ltac:(lia) ltac:(lia)).
  vm_compute in Hall. discriminate Hall.
Qed.

(** ** The driver *)

Lemma for_loop_ind {S : Type} (P : Z -> S -> Prop) (body : Z -> S -> S) (s : S) (hi : Z) :
  P 0 s ->
  (forall i s, 0 <= i < hi -> P i s -> P (i + 1) (body i s)) ->
  0 <= hi -> P hi (for_loop 0 hi body s).
Proof.
  intros H0 Hstep Hhi.
  assert (Hn : forall n : nat, Z.of_nat n <= hi -> P (Z.of_nat n) (for_loop 0 (Z.of_nat n) body s)).
  { induction n as [|n IH]; intros Hle.
    - by rewrite for_loop_empty.
    - replace (Z.of_nat (Datatypes.S n)) with (Z.of_nat n + 1) by lia.
      rewrite for_loop_snoc by lia. apply Hstep; [lia|]. apply IH. lia. }
  specialize (Hn (Z.to_nat hi)). rewrite Z2Nat.id in Hn by done. apply Hn. lia.
Qed.

Lemma identity_perm_seqZ (N : Z) : identity_perm N = seqZ 0 N.
Proof.
  unfold identity_perm. destruct (Z.le_gt_cases 0 N) as [HN|HN].
  2:{ rewrite for_loop_empty, seqZ_nil by lia. by replace (Z.to_nat N) with 0%nat by lia. }
  rewrite (for_loop_ind (fun k perm => perm = seqZ 0 k ++ replicate (Z.to_nat (N - k)) 0)
             (fun i perm => store perm i i) (replicate (Z.to_nat N) 0) N); [| | |done].
  - rewrite Z.sub_diag. apply app_nil_r.
  - rewrite Z.sub_0_r. reflexivity.
  - intros i perm Hi ->. unfold store.
    rewrite insert_app_r_alt by (rewrite length_seqZ; lia).
    rewrite length_seqZ, Nat.sub_diag.
    replace (Z.to_nat (N - i)) with (Datatypes.S (Z.to_nat (N - (i + 1)))) by lia.
    simpl. rewrite (seqZ_app 0 i 1) by lia.
    rewrite <- app_assoc. reflexivity.
Qed.

Section DriverFacts.

Context {double : Type} `{!DoubleOps double} {G : Type}.
Variable vector2matrix : list double -> Z -> Z -> Z -> @matrix double.
Variable distance : @matrix double -> Z -> Z -> @matrix double.
Variable permute : G -> list Z -> Z -> list Z * G.

Local Abbreviation step := (replicate_step permute).

(** What one pass of the bootstrap loop leaves alone, and what it adds. *)
Lemma replicate_step_frame (K : Z) (sizes : list Z) (N U b : Z) (st : state double G) :
  st_x (step K sizes N U b st) = st_x st
  /\ st_e0 (step K sizes N U b st) = st_e0 st
  /\ st_pval (step K sizes N U b st) = st_pval st
  /\ st_D (step K sizes N U b st) = st_D st
  /\ calls (step K sizes N U b st)
     = calls st ++ [(st_D st, st_perm (step K sizes N U b st))]
  /\ st_perm (step K sizes N U b st) = (permute (st_rng st) (st_perm st) N).1.
Proof. unfold replicate_step. by destruct (permute _ _ _). Qed.

Lemma replicate_step_count (K : Z) (sizes : list Z) (N U b : Z) (st : state double G) :
  0 <= b ->
  st_ek (step K sizes N U b st)
  = (if dlt (st_e0 st) (dbl_at (st_e (step K sizes N U b st)) b)
     then Int.add (st_ek st) 1 else st_ek st)
  /\ forall b', 0 <= b' -> b' <> b ->
       dbl_at (st_e (step K sizes N U b st)) b' = dbl_at (st_e st) b'.
Proof.
  intros Hb. unfold replicate_step. destruct (permute _ _ _) as [perm rng]. simpl.
  split; [done|]. intros b' Hb' Hne. unfold dbl_at, store.
  rewrite list_lookup_insert_ne; [done|lia].
Qed.

Lemma count_exceeding_succ (e0 : double) (e : list double) (b : Z) :
  0 <= b ->
  count_exceeding e0 e (b + 1)
  = count_exceeding e0 e b + (if dlt e0 (dbl_at e b) then 1 else 0).
Proof.
  intros Hb. unfold count_exceeding. rewrite seqZ_app by lia.
  rewrite fmap_app, Zsum_app, Z.add_0_l.
  rewrite (seqZ_cons _ 1), (seqZ_nil _ (Z.pred 1)) by lia.
  unfold Zsum at 2. simpl. lia.
Qed.

Lemma count_exceeding_ext (e0 : double) (e e' : list double) (b : Z) :
  (forall b', 0 <= b' < b -> dbl_at e' b' = dbl_at e b') ->
  count_exceeding e0 e' b = count_exceeding e0 e b.
Proof.
  intros Hext. unfold count_exceeding. f_equal. apply list_fmap_ext.
  intros i b' Hb'. apply list_elem_of_lookup_2, elem_of_seqZ in Hb'.
  rewrite Hext by lia. reflexivity.
Qed.

Lemma count_exceeding_bounds (e0 : double) (e : list double) (b : Z) :
  0 <= b -> 0 <= count_exceeding e0 e b <= b.
Proof.
  intros Hb. rewrite <- (Z2Nat.id b) by done.
  induction (Z.to_nat b) as [|k IH].
  - unfold count_exceeding. simpl. lia.
  - replace (Z.of_nat (Datatypes.S k)) with (Z.of_nat k + 1) by lia.
    rewrite count_exceeding_succ by lia. destruct (dlt e0 _); lia.
Qed.

(** The state after [B] passes of the bootstrap loop. *)
Lemma replicate_loop_invariant (K : Z) (sizes : list Z) (N U B : Z) (st : state double G) :
  0 <= B ->
  let st' := for_loop 0 B (step K sizes N U) st in
  st_x st' = st_x st /\ st_e0 st' = st_e0 st /\ st_pval st' = st_pval st
  /\ st_D st' = st_D st
  /\ (exists perms, calls st' = calls st ++ ((λ p, (st_D st, p)) <$> perms)
        /\ Z.of_nat (length perms) = B
        /\ (forall Inv : list Z -> Prop,
              (forall g J, Inv J -> Inv (permute g J N).1) -> Inv (st_perm st) ->
              Inv (st_perm st') /\ Forall Inv perms))
  /\ (st_ek st = 0 -> B < Int.INT_MAX ->
      st_ek st' = count_exceeding (st_e0 st) (st_e st') B).
Proof.
  intros HB. cbv zeta.
  apply (for_loop_ind (fun b st' =>
    st_x st' = st_x st /\ st_e0 st' = st_e0 st /\ st_pval st' = st_pval st
    /\ st_D st' = st_D st
    /\ (exists perms, calls st' = calls st ++ ((λ p, (st_D st, p)) <$> perms)
          /\ Z.of_nat (length perms) = b
          /\ (forall Inv : list Z -> Prop,
                (forall g J, Inv J -> Inv (permute g J N).1) -> Inv (st_perm st) ->
                Inv (st_perm st') /\ Forall Inv perms))
    /\ (st_ek st = 0 -> b < Int.INT_MAX ->
        st_ek st' = count_exceeding (st_e0 st) (st_e st') b))); [| |done].
  - repeat split; try done.
    exists []. simpl. rewrite app_nil_r. repeat split; done || constructor.
  - intros b s Hb (Hx & He0 & Hpv & HD & (perms & Hcalls & Hlen & Hperm) & Hek).
    destruct (replicate_step_frame K sizes N U b s) as (Fx & Fe0 & Fpv & FD & Fcalls & Fperm).
    destruct (replicate_step_count K sizes N U b s) as [Cek Ce]; [lia|].
    split; [congruence|]. split; [congruence|]. split; [congruence|]. split; [congruence|].
    split.
    + exists (perms ++ [st_perm (step K sizes N U b s)]). split; [|split].
      * rewrite Fcalls, Hcalls, fmap_app, <- app_assoc, HD. reflexivity.
      * rewrite length_app. simpl. lia.
      * intros Inv Hcontract Hinit. destruct (Hperm Inv Hcontract Hinit) as [Hp Hall].
        assert (Hnew : Inv (st_perm (step K sizes N U b s))).
        { rewrite Fperm. by apply Hcontract. }
        split; [exact Hnew|]. apply Forall_app. split; [exact Hall|].
        by apply Forall_singleton.
    + intros Hek0 Hmax. unfold Int.INT_MAX in Hmax. rewrite Cek, Hek by (unfold Int.INT_MAX; lia).
      rewrite count_exceeding_succ by lia.
      rewrite (count_exceeding_ext _ (st_e s) (st_e (step K sizes N U b s)))
        by (intros b' Hb'; apply Ce; lia).
      rewrite He0.
      pose proof (count_exceeding_bounds (st_e0 st) (st_e s) b ltac:(lia)) as Hbound.
      destruct (dlt (st_e0 st) _); [|lia].
      unfold Int.add. rewrite wrap_int_id; [done|].
      unfold Int.in_range, Int.INT_MIN, Int.INT_MAX. lia.
Qed.

End DriverFacts.

Lemma bijection_identity (N : Z) : bijection N (seqZ 0 N).
Proof. split; [apply NoDup_seqZ|]. intros i. rewrite elem_of_seqZ. lia. Qed.

Lemma bijection_Permutation (N : Z) (p : list Z) : bijection N p <-> p ≡ₚ seqZ 0 N.
Proof.
  split.
  - intros [Hnd Hin]. apply NoDup_Permutation; [done|apply NoDup_seqZ|].
    intros i. rewrite Hin, elem_of_seqZ. lia.
  - intros Hp. split.
    + rewrite Hp. apply NoDup_seqZ.
    + intros i. rewrite Hp, elem_of_seqZ. lia.
Qed.

Section DriverResults.

Context {double : Type} `{!DoubleOps double} {G : Type}.
Variable vector2matrix : list double -> Z -> Z -> Z -> @matrix double.
Variable distance : @matrix double -> Z -> Z -> @matrix double.
Variable permute : G -> list Z -> Z -> list Z * G.

Local Abbreviation run := (ksampleEtest vector2matrix distance permute).

Lemma ksampleEtest_spec (byrow K : Z) (sizes : list Z) (d R U : Z) (st : state double G) :
  let N := pooled_size K sizes in
  let D := build_D vector2matrix distance (st_x st) byrow N d in
  let st' := run byrow K sizes d R U st in
  st_x st' = st_x st /\ st_D st' = D
  /\ st_e0 st' = multisampleE D K sizes (seqZ 0 N) U
  /\ (exists perms, calls st' = (D, seqZ 0 N) :: ((λ p, (D, p)) <$> perms)
        /\ Z.of_nat (length perms) = Z.max R 0
        /\ (forall Inv : list Z -> Prop,
              (forall g J, Inv J -> Inv (permute g J N).1) -> Inv (seqZ 0 N) ->
              Inv (st_perm st') /\ Forall Inv perms))
  /\ (R <= 0 -> st_pval st' = st_pval st /\ st_e st' = st_e st)
  /\ (0 < R < Int.INT_MAX ->
      st_pval st'
      = of_int (count_exceeding (st_e0 st') (st_e st') R + 1) ⊘ of_int (R + 1)).
Proof.
  cbv zeta. unfold ksampleEtest. rewrite identity_perm_seqZ.
  set (N := pooled_size K sizes).
  set (D := build_D vector2matrix distance (st_x st) byrow N d).
  destruct (Z.ltb_spec 0 R) as [HR|HR].
  - match goal with |- context [for_loop 0 R ?f ?s] =>
      pose proof (replicate_loop_invariant permute K sizes N U R s ltac:(lia)) as Hinv;
      set (st1 := s) in *
    end.
    cbv zeta in Hinv. simpl in Hinv.
    destruct Hinv as (Hx & He0 & Hpv & HD & (perms & Hcalls & Hlen & Hperm) & Hek).
    simpl. repeat split; try done; try lia.
    + exists perms. split; [by rewrite Hcalls|]. split; [lia|]. exact Hperm.
    + intros [_ Hmax]. rewrite Hek by done. rewrite He0.
      unfold Int.add.
      pose proof (count_exceeding_bounds (multisampleE D K sizes (seqZ 0 N) U)
                    (st_e (for_loop 0 R (replicate_step permute K sizes N U) st1)) R
                    ltac:(lia)) as Hb.
      unfold Int.INT_MAX in Hmax.
      rewrite !wrap_int_id; [done|unfold Int.in_range, Int.INT_MIN, Int.INT_MAX; lia..].
  - simpl. repeat split; try done; try lia.
    exists []. split; [done|]. split; [simpl; lia|]. intros Inv _ Hinit.
    split; [done|constructor].
Qed.

(** C8.  With [d = 0] the distance matrix is the caller's buffer reshaped
    by [vector2matrix], whatever [distance] would compute; the caller's
    buffer is left as it was; the observed statistic and each of the [R]
    replicates are computed from that one matrix, which is still the
    driver's [D] when the loop ends. *)
Theorem distance_matrix_passthrough (distance' : @matrix double -> Z -> Z -> @matrix double)
    (byrow K : Z) (sizes : list Z) (R U : Z) (st : state double G) :
  let N := pooled_size K sizes in
  let D := vector2matrix (st_x st) N N byrow in
  let st' := run byrow K sizes 0 R U st in
  st_x st' = st_x st
  /\ st_D st' = D
  /\ Forall (λ c, c.1 = D) (calls st')
  /\ Z.of_nat (length (calls st')) = 1 + Z.max R 0
  /\ ksampleEtest vector2matrix distance' permute byrow K sizes 0 R U st = st'.
Proof.
  cbv zeta.
  destruct (ksampleEtest_spec byrow K sizes 0 R U st)
    as (Hx & HD & _ & (perms & Hcalls & Hlen & _) & _).
  cbv zeta in *. change (build_D vector2matrix distance (st_x st) byrow
    (pooled_size K sizes) 0) with (vector2matrix (st_x st) (pooled_size K sizes)
    (pooled_size K sizes) byrow) in *.
  split; [done|]. split; [done|]. split; [|split].
  - rewrite Hcalls. constructor; [done|]. apply Forall_fmap, Forall_true. done.
  - rewrite Hcalls. simpl. rewrite length_fmap. lia.
  - reflexivity.
Qed.

(** C9.  If [permute] maps a permutation of [0, ..., N-1] to a permutation
    of [0, ..., N-1], the index array is the identity [0, 1, ..., N-1] at
    the call that computes the observed statistic, and a bijection on
    [0, ..., N-1] (no duplicates, every index present) at each of the [R]
    calls that compute a replicate and when the loop ends. *)
Theorem perm_bijection (byrow K : Z) (sizes : list Z) (d R U : Z) (st : state double G) :
  let N := pooled_size K sizes in
  let st' := run byrow K sizes d R U st in
  (forall g J, bijection N J -> bijection N (permute g J N).1) ->
  (exists D, head (calls st') = Some (D, seqZ 0 N))
  /\ Forall (λ c, bijection N c.2) (calls st')
  /\ Z.of_nat (length (calls st')) = 1 + Z.max R 0
  /\ bijection N (st_perm st').
Proof.
  cbv zeta. intros Hcontract.
  destruct (ksampleEtest_spec byrow K sizes d R U st)
    as (_ & _ & _ & (perms & Hcalls & Hlen & Hperm) & _).
  cbv zeta in *.
  destruct (Hperm (bijection (pooled_size K sizes)) Hcontract (bijection_identity _))
    as [Hp Hall].
  rewrite Hcalls.
  split; [by eexists|]. split; [|split; [|done]].
  - constructor; [apply bijection_identity|]. by apply Forall_fmap.
  - simpl. rewrite length_fmap. lia.
Qed.

(** C4, as the code has it.  [ksampleEtest] has no validation and no error
    path: on every configuration it calls [multisampleE], so nothing is
    rejected.  With a single group the observed statistic is [0.0]; with
    [R <= 0] the bootstrap loop is skipped and [e] and [*pval] keep their
    contents; a pair with a group of size below one contributes
    [twosampleE = 0.0]. *)
Theorem ksampleEtest_no_validation (byrow K : Z) (sizes : list Z) (d R U : Z)
    (st : state double G) :
  let st' := run byrow K sizes d R U st in
  ~ rejected st st'
  /\ (K = 1 -> st_e0 st' = of_int 0)
  /\ (R <= 0 -> st_e st' = st_e st /\ st_pval st' = st_pval st)
  /\ (forall D m n X Y u, m < 1 \/ n < 1 -> twosampleE D m n X Y u = of_int 0).
Proof.
  cbv zeta.
  destruct (ksampleEtest_spec byrow K sizes d R U st)
    as (_ & _ & He0 & (perms & Hcalls & _) & HR & _).
  cbv zeta in *. split; [|split; [|split]].
  - intros [Hnil _]. by rewrite Hcalls in Hnil.
  - intros ->. rewrite He0. by rewrite multisampleE_unfold.
  - intros HR0. by destruct (HR HR0).
  - intros D m n X Y u. apply twosampleE_degenerate.
Qed.

End DriverResults.

Lemma rotate_permute_contract (g : nat) (J : list Z) (n : Z) : (rotate_permute g J n).1 ≡ₚ J.
Proof.
  unfold rotate_permute, rotate. simpl fst.
  rewrite Permutation_app_comm. by rewrite take_drop.
Qed.

Lemma perm_bijection_witness :
  Forall (λ c, bijection (pooled_size 2 [3; 3]) c.2)
    (calls (ksampleEtest reshape sample_distance rotate_permute 1 2 [3; 3] 1 4 0
              (entry_state [0; 1; 2; 10; 11; 12] 4))).
Proof.
  apply (perm_bijection reshape sample_distance rotate_permute 1 2 [3; 3] 1 4 0
           (entry_state [0; 1; 2; 10; 11; 12] 4)).
  intros g J HJ. apply bijection_Permutation.
  rewrite rotate_permute_contract. by apply bijection_Permutation.
Defined.

Lemma ksampleEtest_no_validation_witness :
  st_e0 (ksampleEtest reshape sample_distance rotate_permute 1 1 [3] 1 0 0
           (entry_state [0; 1; 2] 0)) = of_int 0.
Proof.
  apply (ksampleEtest_no_validation reshape sample_distance rotate_permute 1 1 [3] 1 0 0
           (entry_state [0; 1; 2] 0)).
  reflexivity.
Defined.

(** C4 as stated fails: with one group ([K = 1 < 2]) of three points and
    [R = 0], [ksampleEtest] runs to the end, calls [multisampleE] once and
    overwrites [*e0] (which held [7.0]) with [0.0]. *)
Lemma ksampleEtest_accepts_single_group :
  invalid_configuration 1 [3] 0
  /\ st_e0 (entry_state [0; 1; 2] 0) = S754_finite false 7881299347898368 (-50)
  /\ st_e0 (ksampleEtest reshape sample_distance rotate_permute 1 1 [3] 1 0 0
              (entry_state [0; 1; 2] 0)) = S754_zero false
  /\ length (calls (ksampleEtest reshape sample_distance rotate_permute 1 1 [3] 1 0 0
                      (entry_state [0; 1; 2] 0))) = 1%nat
  /\ ~ (forall (byrow K : Z) (sizes : list Z) (d R U : Z) (st : state spec_float nat),
          invalid_configuration K sizes R ->
          rejected st (ksampleEtest reshape sample_distance rotate_permute
                         byrow K sizes d R U st)).
Proof.
  assert (Hinv : invalid_configuration 1 [3] 0) by (left; lia).
  split; [exact Hinv|]. split; [reflexivity|]. split; [reflexivity|].
  split; [reflexivity|].
  intros Hall. destruct (Hall 1 1 [3] 1 0 0 (entry_state [0; 1; 2] 0) Hinv) as [Hnil _].
  discriminate Hnil.
Qed.

(** ** Quotients of [int]s in binary64 *)

Section QuotientRounding.

Local Abbreviation prec := B64.prec.
Local Abbreviation emax := B64.emax.
















End QuotientRounding.

(** ** The p-value *)

Section PValue.

Context {G : Type}.
Variable vector2matrix : list spec_float -> Z -> Z -> Z -> @matrix spec_float.
Variable distance : @matrix spec_float -> Z -> Z -> @matrix spec_float.
Variable permute : G -> list Z -> Z -> list Z * G.

Lemma count_exceeding_none (e0 : spec_float) (e : list spec_float) (R : Z) :
  (forall b, 0 <= b < R -> dlt e0 (dbl_at e b) = false) -> count_exceeding e0 e R = 0.
Proof.
  intros Hnone. unfold count_exceeding.
  rewrite (list_fmap_ext _ (λ _, 0) (seqZ 0 R)).
  - unfold Zsum. induction (seqZ 0 R) as [|b l IH]; csimpl; lia.
  - intros i b Hb. apply list_elem_of_lookup_2, elem_of_seqZ in Hb.
    rewrite Hnone by lia. reflexivity.
Qed.





End PValue.


(** * Part IV: further properties of energy.c *)

(** ** [edist] *)

Section Edist.

Context {double : Type} `{!DoubleOps double}.

Lemma edist_degenerate (D : matrix) (m n u : Z) : m < 1 \/ n < 1 -> edist D m n u = of_int 0.
Proof.
  intros Hd. unfold edist.
  destruct (Z.ltb_spec m 1), (Z.ltb_spec n 1); simpl; (reflexivity || lia).
Qed.

Lemma edist_unfold (D : matrix) (m n u : Z) :
  1 <= m -> 1 <= n ->
  edist D m n u =
    let sumxx := dsum ((λ p, D_at D p.1 p.2) <$> unordered_pairs m)
                 ⊗ (of_int 2 ⊘ of_int (Int.mul m m)) in
    let sumyy := dsum ((λ p, D_at D p.1 p.2) <$> unordered_pairs n)
                 ⊗ (of_int 2 ⊘ of_int (Int.mul n n)) in
    let sumxx := if decide (u = 1) then sumxx ⊗ (of_int m ⊘ of_int (Int.sub m 1)) else sumxx in
    let sumyy := if decide (u = 1) then sumyy ⊗ (of_int n ⊘ of_int (Int.sub n 1)) else sumyy in
    let sumxy := dsum ((λ p, D_at D p.1 p.2) <$> cross_pairs m n) ⊘ of_int (Int.mul m n) in
    of_int (Int.mul m n) ⊘ of_int (Int.add m n) ⊗ (of_int 2 ⊗ sumxy ⊖ sumxx ⊖ sumyy).
Proof.
  intros Hm Hn. unfold edist.
  destruct (Z.ltb_spec m 1); [lia|]. destruct (Z.ltb_spec n 1); [lia|]. simpl.
  rewrite !(nested_loops_sum _ _ _ _ (fun i j => D_at D i j)).
  unfold dsum, unordered_pairs, cross_pairs. rewrite !Z.sub_0_r.
  destruct (Z.eqb_spec u 1), (decide (u = 1)); try contradiction; reflexivity.
Qed.

Lemma sum_over_identity (D : matrix) (a b : Z) (ps : list (Z * Z)) :
  (forall i j, (i, j) ∈ ps -> (0 <= i < a) /\ (0 <= j < b)) ->
  sum_over D (seqZ 0 a) (seqZ 0 b) ps = dsum ((λ p, D_at D p.1 p.2) <$> ps).
Proof.
  intros Hin. unfold sum_over. apply dsum_fmap_ext. intros [i j] Hij.
  destruct (Hin i j Hij) as [Hi Hj]. simpl.
  rewrite !int_at_seqZ by lia. by rewrite !Z.add_0_l.
Qed.

(** X1.  [edist(D, m, n, unbiased)] is [twosampleE] with both index lists
    the identity [0, 1, 2, ...]: the within-group sum of the second group
    and the cross sum read [D[i][j]] at the loop indices themselves, so the
    second group is the rows [0..n-1], not the rows [m..m+n-1]. *)
Theorem edist_twosampleE_identity (D : matrix) (m n unbiased : Z) :
  edist D m n unbiased = twosampleE D m n (seqZ 0 m) (seqZ 0 n) unbiased.
Proof.
  destruct (decide (m < 1 \/ n < 1)) as [Hd|Hd].
  - by rewrite twosampleE_degenerate, edist_degenerate.
  - rewrite twosampleE_unfold, edist_unfold by lia. cbv zeta.
    rewrite (sum_over_identity D m m), (sum_over_identity D n n), (sum_over_identity D m n).
    + reflexivity.
    + intros i j Hij%elem_of_cross_pairs. lia.
    + intros i j Hij%elem_of_unordered_pairs. lia.
    + intros i j Hij%elem_of_unordered_pairs. lia.
Qed.

End Edist.

Section SelfDistance.

Lemma Rsum_app (l k : list R) : Rsum (l ++ k) = (Rsum l + Rsum k)%R.
Proof. unfold Rsum. induction l as [|x l IH]; simpl; [ring|]. rewrite IH. ring. Qed.

Lemma Rsum_zero {A : Type} (f : A -> R) (l : list A) :
  (forall a, a ∈ l -> f a = 0%R) -> Rsum (f <$> l) = 0%R.
Proof.
  unfold Rsum. induction l as [|x l IH]; intros Hf; csimpl; [done|].
  rewrite Hf by constructor. rewrite IH; [ring|]. intros a Ha. apply Hf. by constructor.
Qed.

Lemma elem_of_diagonal_pairs (m i j : Z) : (i, j) ∈ diagonal_pairs m <-> i = j /\ 0 <= i < m.
Proof.
  unfold diagonal_pairs. rewrite list_elem_of_fmap. split.
  - intros (k & Heq & Hk%elem_of_seqZ). injection Heq as -> ->. lia.
  - intros [-> Hi]. exists j. split; [done|]. apply elem_of_seqZ. lia.
Qed.

(** The square [{0..m-1}²] is the strict upper triangle, its mirror image
    and the diagonal. *)
Lemma square_pairs_split (m : Z) :
  cross_pairs m m
  ≡ₚ unordered_pairs m ++ (prod_swap <$> unordered_pairs m) ++ diagonal_pairs m.
Proof.
  rewrite cross_pairs_loop, unordered_pairs_loop.
  apply NoDup_Permutation.
  - apply NoDup_loop_pairs.
  - apply NoDup_app. split; [apply NoDup_loop_pairs|]. split.
    + intros [i j] Hu%elem_of_loop_pairs Hrest. apply elem_of_app in Hrest as [Hs|Hd].
      * apply list_elem_of_fmap in Hs as ([i' j'] & Heq & Hin%elem_of_loop_pairs).
        simpl in Heq. injection Heq as -> ->. lia.
      * apply elem_of_diagonal_pairs in Hd. lia.
    + apply NoDup_app. split; [apply NoDup_fmap_2; [apply _|apply NoDup_loop_pairs]|]. split.
      * intros [i j] Hs Hd. apply elem_of_diagonal_pairs in Hd.
        apply list_elem_of_fmap in Hs as ([i' j'] & Heq & Hin%elem_of_loop_pairs).
        simpl in Heq. injection Heq as -> ->. lia.
      * apply NoDup_fmap_2_strong; [|apply NoDup_seqZ]. intros a b _ _. congruence.
  - intros [i j]. rewrite elem_of_loop_pairs, !elem_of_app, elem_of_loop_pairs,
      list_elem_of_fmap, elem_of_diagonal_pairs. split.
    + intros Hij. destruct (Z.lt_trichotomy i j) as [Hlt|[Heq|Hgt]].
      * left. lia.
      * right. right. lia.
      * right. left. exists (j, i). split; [done|]. apply elem_of_loop_pairs. lia.
    + intros [Hu|[([i' j'] & Heq & Hin%elem_of_loop_pairs)|Hd]]; [lia| |lia].
      simpl in Heq. injection Heq as -> ->. lia.
Qed.

(** For a symmetric [f], the sum over the square is twice the sum over the
    strict upper triangle, plus the diagonal. *)
Lemma Rsum_square_split (f : Z * Z -> R) (m : Z) :
  (forall i j, 0 <= i < m -> 0 <= j < m -> f (i, j) = f (j, i)) ->
  Rsum (f <$> cross_pairs m m)
  = (2 * Rsum (f <$> unordered_pairs m) + Rsum (f <$> diagonal_pairs m))%R.
Proof.
  intros Hsym.
  rewrite (Rsum_fmap_Permutation f _ _ (square_pairs_split m)).
  rewrite !fmap_app, !Rsum_app, <- list_fmap_compose.
  rewrite (list_fmap_ext (f ∘ prod_swap) f (unordered_pairs m)); [ring|].
  intros k [i j] Hk. apply list_elem_of_lookup_2, elem_of_unordered_pairs in Hk.
  simpl. apply Hsym; lia.
Qed.

Lemma Rsum_square (f : Z * Z -> R) (m : Z) :
  (forall i j, 0 <= i < m -> 0 <= j < m -> f (i, j) = f (j, i)) ->
  (forall i, 0 <= i < m -> f (i, i) = 0%R) ->
  Rsum (f <$> cross_pairs m m) = (2 * Rsum (f <$> unordered_pairs m))%R.
Proof.
  intros Hsym Hdiag. rewrite Rsum_square_split by done.
  rewrite (Rsum_zero f (diagonal_pairs m)); [ring|].
  intros [i j] [-> Hi]%elem_of_diagonal_pairs. by apply Hdiag.
Qed.

(** X2.  In real arithmetic the statistic of a group against itself is
    zero: for [D] symmetric with zeros on the diagonal entries of the group,
    [twosampleE(D, m, m, X, X, 0) = 0]. *)
Theorem twosampleE_self_real (D : matrix) (m : Z) (X : list Z) :
  symmetric D ->
  (forall i, 0 <= i < m -> D_at D (int_at X i) (int_at X i) = 0%R) ->
  twosampleE (double := R) D m m X X 0 = 0%R.
Proof.
  intros Hsym Hdiag. destruct (decide (m < 1)) as [Hd|Hd].
  - by rewrite twosampleE_degenerate by tauto.
  - rewrite twosampleE_unfold by lia. cbv zeta.
    destruct (decide (0 = 1)) as [|_]; [done|].
    unfold sum_over. rewrite !dsum_Rsum.
    rewrite (Rsum_square (λ p, D_at D (int_at X p.1) (int_at X p.2)) m).
    + simpl. unfold Rdiv. ring.
    + intros i j _ _. apply Hsym.
    + intros i Hi. by apply Hdiag.
Qed.

(** X3.  In real arithmetic [edist(D, m, m, 0) = 0] for every symmetric [D]
    with a zero diagonal: with equal sizes both groups are the rows
    [0..m-1], whatever the rows [m..2m-1] hold. *)
Theorem edist_equal_sizes_real (D : matrix) (m : Z) :
  symmetric D -> (forall i, 0 <= i < m -> D_at D i i = 0%R) ->
  edist (double := R) D m m 0 = 0%R.
Proof.
  intros Hsym Hdiag. destruct (decide (m < 1)) as [Hd|Hd].
  - by rewrite edist_degenerate by tauto.
  - rewrite edist_unfold by lia. cbv zeta.
    destruct (decide (0 = 1)) as [|_]; [done|].
    rewrite !dsum_Rsum.
    rewrite (Rsum_square (λ p, D_at D p.1 p.2) m).
    + simpl. unfold Rdiv. ring.
    + intros i j _ _. apply Hsym.
    + intros i Hi. by apply Hdiag.
Qed.

End SelfDistance.

Lemma twosampleE_self_real_witness :
  twosampleE (double := R) (real_line_distances [0; 2; 5]) 3 3 [2; 0; 1] [2; 0; 1] 0 = 0%R.
Proof.
  apply (twosampleE_self_real (real_line_distances [0; 2; 5]) 3 [2; 0; 1]).
  - solve_symmetric.
  - intros i Hi. assert (i = 0 \/ i = 1 \/ i = 2) as [-> | [-> | ->]] by lia; reflexivity.
Defined.

Lemma edist_equal_sizes_real_witness :
  edist (double := R) (real_line_distances [0; 2; 5; 9]) 2 2 0 = 0%R.
Proof.
  apply (edist_equal_sizes_real (real_line_distances [0; 2; 5; 9]) 2).
  - solve_symmetric.
  - intros i Hi. assert (i = 0 \/ i = 1) as [-> | ->] by lia; reflexivity.
Defined.

(** ** [E2] and [E2sample] *)

Lemma for_loop_ext {S : Type} (lo hi : Z) (body body' : Z -> S -> S) (s : S) :
  (forall i s, lo <= i < hi -> body i s = body' i s) ->
  for_loop lo hi body s = for_loop lo hi body' s.
Proof.
  intros Hb. rewrite !for_loop_foldl. apply foldl_ext_in.
  intros a i Hi%elem_of_seqZ. apply Hb. lia.
Qed.

(** A loop over [lo..hi-1] is the loop over [lo-a..hi-a-1] with the counter
    moved by [a]. *)
Lemma for_loop_shift {S : Type} (a lo hi : Z) (body : Z -> S -> S) (s : S) :
  for_loop lo hi body s = for_loop (lo - a) (hi - a) (fun i => body (i + a)) s.
Proof.
  rewrite !for_loop_foldl. replace (hi - a - (lo - a)) with (hi - lo) by lia.
  replace lo with (a + (lo - a)) at 1 by lia.
  rewrite <- fmap_add_seqZ, foldl_fmap. apply foldl_ext_in.
  intros s' i _. by rewrite Z.add_comm.
Qed.

Lemma for_loop_id {S : Type} (lo hi : Z) (s : S) : for_loop lo hi (fun _ s => s) s = s.
Proof.
  rewrite for_loop_foldl. generalize (seqZ lo (hi - lo)).
  intros l. induction l as [|i l IH]; [reflexivity|exact IH].
Qed.

Section E2Facts.

Context {double : Type} `{!DoubleOps double}.

(** X4.  [E2] on the rows selected through [perm] is [E2sample] on the flat
    row-order buffer that holds the same rows: the [m] rows
    [x[perm[row1 + i]]] first and the [n] rows [x[perm[row2 + j]]] after
    them. *)
Theorem E2_gathered_rows (x : matrix) (flat : list double) (sizes start perm : list Z)
    (ncol : Z) :
  let m := int_at sizes 0 in
  let n := int_at sizes 1 in
  let row1 := int_at start 0 in
  let row2 := int_at start 1 in
  0 <= m -> 0 <= n -> 0 <= ncol ->
  m + n < Int.INT_MAX -> (m + n) * ncol <= Int.INT_MAX ->
  0 <= row1 -> row1 + m <= Int.INT_MAX -> 0 <= row2 -> row2 + n <= Int.INT_MAX ->
  (forall i k, 0 <= i < m -> 0 <= k < ncol ->
     dbl_at flat (i * ncol + k) = D_at x (int_at perm (row1 + i)) k) ->
  (forall j k, 0 <= j < n -> 0 <= k < ncol ->
     dbl_at flat ((m + j) * ncol + k) = D_at x (int_at perm (row2 + j)) k) ->
  E2 x sizes start ncol perm = E2sample flat sizes ncol.
Proof.
  intros m n row1 row2 Hm Hn Hd Hmn Hmax Hr1 Hr1m Hr2 Hr2n HX HY.
  unfold E2, E2sample. cbv zeta. fold m n row1 row2.
  clearbody m n row1 row2. unfold Int.INT_MAX in *.
  assert (Hmul : forall i, 0 <= i < m + n -> Int.mul i ncol = i * ncol).
  { intros i Hi. apply wrap_int_id. unfold Int.in_range, Int.INT_MIN, Int.INT_MAX. nia. }
  assert (Ha1 : forall i, 0 <= i < m -> Int.add row1 i = row1 + i).
  { intros i Hi. apply wrap_int_id. unfold Int.in_range, Int.INT_MIN, Int.INT_MAX. lia. }
  assert (Ha2 : forall j, 0 <= j < n -> Int.add row2 j = row2 + j).
  { intros j Hj. apply wrap_int_id. unfold Int.in_range, Int.INT_MIN, Int.INT_MAX. lia. }
  assert (Hmn' : Int.add m n = m + n).
  { apply wrap_int_id. unfold Int.in_range, Int.INT_MIN, Int.INT_MAX. lia. }
  assert (Hm1 : Int.add m 1 = m + 1).
  { apply wrap_int_id. unfold Int.in_range, Int.INT_MIN, Int.INT_MAX. lia. }
  assert (Hdist : forall p q i j,
    (forall k, 0 <= k < ncol -> dbl_at flat (i * ncol + k) = D_at x p k) ->
    (forall k, 0 <= k < ncol -> dbl_at flat (j * ncol + k) = D_at x q k) ->
    0 <= i < m + n -> 0 <= j < m + n ->
    dsqrt (for_loop 0 ncol (fun k dsum =>
             dsum ⊕ (D_at x p k ⊖ D_at x q k) ⊗ (D_at x p k ⊖ D_at x q k)) (of_int 0))
    = dsqrt (for_loop 0 ncol (fun k dsum =>
               dsum ⊕ (dbl_at flat (Int.mul i ncol + k) ⊖ dbl_at flat (Int.mul j ncol + k))
                      ⊗ (dbl_at flat (Int.mul i ncol + k) ⊖ dbl_at flat (Int.mul j ncol + k)))
               (of_int 0))).
  { intros p q i j Hp Hq Hi Hj. f_equal. apply for_loop_ext. intros k s Hk.
    rewrite !Hmul by done. by rewrite Hp, Hq. }
  rewrite Hmn', Hm1. f_equal. f_equal; [f_equal|]; f_equal.
  - apply for_loop_ext. intros i s Hi.
    rewrite (for_loop_shift m m (m + n)).
    replace (m - m) with 0 by lia. replace (m + n - m) with n by lia.
    apply for_loop_ext. intros j s' Hj. f_equal. apply Hdist; try lia.
    + intros k Hk. rewrite Ha1 by done. by apply HX.
    + intros k Hk. rewrite Ha2 by done. rewrite (Z.add_comm j m). by apply HY.
  - apply for_loop_ext. intros i s Hi.
    apply for_loop_ext. intros j s' Hj. f_equal. apply Hdist; try lia.
    + intros k Hk. rewrite Ha1 by lia. apply HX; lia.
    + intros k Hk. rewrite Ha1 by lia. apply HX; lia.
  - rewrite (for_loop_shift m (m + 1) (m + n)).
    replace (m + 1 - m) with 1 by lia. replace (m + n - m) with n by lia.
    apply for_loop_ext. intros i s Hi.
    rewrite (for_loop_shift m m (i + m)).
    replace (m - m) with 0 by lia. replace (i + m - m) with i by lia.
    apply for_loop_ext. intros j s' Hj. f_equal. apply Hdist; try lia.
    + intros k Hk. rewrite Ha2 by lia. rewrite (Z.add_comm i m). apply HY; lia.
    + intros k Hk. rewrite Ha2 by lia. rewrite (Z.add_comm j m). apply HY; lia.
Qed.

End E2Facts.

Lemma E2_gathered_rows_witness :
  E2 (double := spec_float) [[of_int 9]; [of_int 1]; [of_int 4]; [of_int 0]; [of_int 2]]
     [2; 2] [0; 2] 1 [3; 1; 4; 0]
  = E2sample (of_int <$> [0; 1; 2; 9]) [2; 2] 1.
Proof.
  apply (E2_gathered_rows
           [[of_int 9]; [of_int 1]; [of_int 4]; [of_int 0]; [of_int 2]]
           (of_int <$> [0; 1; 2; 9]) [2; 2] [0; 2] [3; 1; 4; 0] 1);
    try (unfold Int.INT_MAX, int_at; simpl; lia).
  - intros i k Hi Hk. unfold int_at in Hi; simpl in Hi. assert (k = 0) as -> by lia.
    assert (i = 0 \/ i = 1) as [-> | ->] by lia; reflexivity.
  - intros j k Hj Hk. unfold int_at in Hj; simpl in Hj. assert (k = 0) as -> by lia.
    assert (j = 0 \/ j = 1) as [-> | ->] by lia; reflexivity.
Defined.

(** X5.  [E2] has no guard for an empty group: in binary64, when either
    size is zero the cross sum is [0.0 / 0.0], and [E2] returns NaN
    (where [twosampleE] and [edist] return [0.0]). *)
Theorem E2_empty_group_nan (x : @matrix spec_float) (sizes start perm : list Z) (ncol : Z) :
  int_at sizes 0 = 0 \/ int_at sizes 1 = 0 ->
  E2 x sizes start ncol perm = NaN.
Proof.
  intros Hempty. unfold E2. cbv zeta.
  set (m := int_at sizes 0) in *. set (n := int_at sizes 1) in *.
  match goal with |- context [for_loop 0 m ?body (of_int 0) ⊘ of_int (Int.mul m n)] =>
    assert (Hxy : for_loop 0 m body (of_int 0) ⊘ of_int (Int.mul m n) = NaN)
  end.
  { destruct Hempty as [-> | ->].
    - rewrite for_loop_empty by lia. unfold Int.mul. rewrite Z.mul_0_l. reflexivity.
    - rewrite (for_loop_ext 0 m _ (fun _ s => s)).
      + rewrite for_loop_id. unfold Int.mul. rewrite Z.mul_0_r. reflexivity.
      + intros i s _. by rewrite for_loop_empty by lia. }
  rewrite Hxy. unfold NaN. cbn [dsub dmul B64.ops]. rewrite !SFsub_nan_l. apply SFmul_nan_r.
Qed.

Lemma E2_empty_group_nan_witness :
  E2 (double := spec_float) [[of_int 0]; [of_int 3]] [0; 2] [0; 0] 1 [0; 1] = NaN.
Proof.
  apply (E2_empty_group_nan [[of_int 0]; [of_int 3]] [0; 2] [0; 0] [0; 1] 1).
  left. reflexivity.
Defined.

(** X6.  [E2sample] has no guard for an empty group either: in binary64,
    with [sizes[0] = 0], or with [sizes[1] = 0], it stores NaN in [*stat]. *)
Theorem E2sample_empty_group_nan (x : list spec_float) (sizes : list Z) (dim : Z) :
  int_at sizes 0 = 0 \/ (int_at sizes 1 = 0 /\ Int.in_range (int_at sizes 0)) ->
  E2sample x sizes dim = NaN.
Proof.
  intros Hempty. unfold E2sample. cbv zeta.
  set (m := int_at sizes 0) in *. set (n := int_at sizes 1) in *.
  match goal with |- context [for_loop 0 m ?body (of_int 0) ⊘ of_int (Int.mul m n)] =>
    assert (Hxy : for_loop 0 m body (of_int 0) ⊘ of_int (Int.mul m n) = NaN)
  end.
  { destruct Hempty as [-> | [-> Hm]].
    - rewrite for_loop_empty by lia. unfold Int.mul. rewrite Z.mul_0_l. reflexivity.
    - rewrite (for_loop_ext 0 m _ (fun _ s => s)).
      + rewrite for_loop_id. unfold Int.mul. rewrite Z.mul_0_r. reflexivity.
      + intros i s _. apply for_loop_empty. unfold Int.add.
        rewrite Z.add_0_r, wrap_int_id by done. lia. }
  rewrite Hxy. unfold NaN. cbn [dsub dmul B64.ops]. rewrite !SFsub_nan_l. apply SFmul_nan_r.
Qed.

Lemma E2sample_empty_group_nan_witness :
  E2sample (of_int <$> [0; 3]) [2; 0] 1 = NaN.
Proof.
  apply (E2sample_empty_group_nan (of_int <$> [0; 3]) [2; 0] 1).
  right. split; [reflexivity|]. unfold Int.in_range, Int.INT_MIN, Int.INT_MAX, int_at. simpl. lia.
Defined.

(** ** [multisampleE] and the groups of the permutation array *)

Lemma int_at_nonneg (sizes : list Z) (k : Z) : Forall (λ s, 0 <= s) sizes -> 0 <= int_at sizes k.
Proof.
  intros Hs. unfold int_at. destruct (sizes !! Z.to_nat k) as [s|] eqn:Hk; simpl; [|lia].
  by apply (Forall_lookup_1 _ _ _ _ Hs Hk).
Qed.

Lemma prefix_sum_mono (sizes : list Z) (a b : Z) :
  Forall (λ s, 0 <= s) sizes -> 0 <= a <= b -> prefix_sum sizes a <= prefix_sum sizes b.
Proof.
  intros Hs Hab. unfold prefix_sum.
  replace (Z.to_nat b) with (Z.to_nat a + Z.to_nat (b - a))%nat by lia.
  rewrite <- take_take_drop, Zsum_app.
  pose proof (Zsum_nonneg (take (Z.to_nat (b - a)) (drop (Z.to_nat a) sizes))) as Hn.
  specialize (Hn ltac:(by apply Forall_take, Forall_drop)). lia.
Qed.

(** The pooled size that [ksampleEtest] computes is the last prefix sum. *)
Lemma pooled_size_prefix_sum (K : Z) (sizes : list Z) :
  Forall (λ s, 0 <= s) sizes -> Zsum sizes <= Int.INT_MAX ->
  pooled_size K sizes = prefix_sum sizes K.
Proof.
  intros Hs Hsum. unfold pooled_size. destruct (decide (0 <= K)) as [HK|HK].
  - apply (for_loop_ind (λ k N, N = prefix_sum sizes k)); [reflexivity| |done].
    intros k N Hk ->. rewrite prefix_sum_succ by lia.
    apply wrap_int_id.
    pose proof (prefix_sum_bounds sizes (k + 1) Hs) as Hb.
    rewrite prefix_sum_succ in Hb by lia.
    unfold Int.in_range, Int.INT_MIN, Int.INT_MAX in *. lia.
  - rewrite for_loop_empty by lia. unfold prefix_sum.
    replace (Z.to_nat K) with 0%nat by lia. reflexivity.
Qed.

(** The slice of group [k] lies within the first [prefix_sum sizes K]
    entries. *)
Lemma group_slice_prefix (sizes perm : list Z) (K k : Z) :
  Forall (λ s, 0 <= s) sizes -> 0 <= k < K ->
  group_slice sizes (take (Z.to_nat (prefix_sum sizes K)) perm) k = group_slice sizes perm k.
Proof.
  intros Hs Hk. unfold group_slice.
  pose proof (prefix_sum_bounds sizes k Hs) as Hb.
  pose proof (int_at_nonneg sizes k Hs) as Hn.
  pose proof (prefix_sum_mono sizes (k + 1) K Hs ltac:(lia)) as Hmono.
  rewrite prefix_sum_succ in Hmono by lia.
  rewrite !take_drop_commute, take_take. do 2 f_equal. lia.
Qed.

Section MultiSampleFacts.

Context {double : Type} `{!DoubleOps double}.

(** X7.  [multisampleE] reads the permutation array only below the pooled
    size [N = sizes[0] + ... + sizes[K-1]]: two arrays that agree on their
    first [N] entries give the same statistic. *)
Theorem multisampleE_reads_first_N (D : matrix) (K : Z) (sizes perm perm' : list Z)
    (unbiased : Z) :
  Forall (λ s, 0 <= s) sizes -> Zsum sizes <= Int.INT_MAX ->
  take (Z.to_nat (pooled_size K sizes)) perm = take (Z.to_nat (pooled_size K sizes)) perm' ->
  multisampleE D K sizes perm unbiased = multisampleE D K sizes perm' unbiased.
Proof.
  intros Hs Hsum Hagree. rewrite pooled_size_prefix_sum in Hagree by done.
  rewrite !multisampleE_unfold. apply dsum_fmap_ext.
  intros [i j] Hij%elem_of_unordered_pairs. simpl.
  rewrite !group_offsets_prefix by (done || lia).
  rewrite <- (twosampleE_take D _ _ (offset perm _)),
          <- (twosampleE_take D _ _ (offset perm' _)).
  unfold offset. fold (group_slice sizes perm i) (group_slice sizes perm j).
  fold (group_slice sizes perm' i) (group_slice sizes perm' j).
  rewrite <- (group_slice_prefix sizes perm K i), <- (group_slice_prefix sizes perm K j),
          <- (group_slice_prefix sizes perm' K i), <- (group_slice_prefix sizes perm' K j)
    by (done || lia).
  by rewrite Hagree.
Qed.

(** With a single group there is no pair of groups, and the sum is empty. *)
Lemma multisampleE_single_group (D : matrix) (sizes perm : list Z) (unbiased : Z) :
  multisampleE D 1 sizes perm unbiased = of_int 0.
Proof. rewrite multisampleE_unfold. reflexivity. Qed.

End MultiSampleFacts.

Lemma multisampleE_reads_first_N_witness :
  multisampleE (B64.line_distances [0; 2; 1; 3; 4]) 2 [2; 3] [4; 0; 1; 3; 2; 7; 7] 0
  = multisampleE (B64.line_distances [0; 2; 1; 3; 4]) 2 [2; 3] [4; 0; 1; 3; 2] 0.
Proof.
  apply (multisampleE_reads_first_N (B64.line_distances [0; 2; 1; 3; 4]) 2 [2; 3]
           [4; 0; 1; 3; 2; 7; 7] [4; 0; 1; 3; 2] 0).
  - repeat constructor; lia.
  - unfold Int.INT_MAX, Zsum. simpl. lia.
  - reflexivity.
Defined.

(** X8.  The groups tile the permutation array: the slices of lengths
    [sizes[k]] at the offsets [M[k]] that [multisampleE] computes, taken in
    order for [k < K], are exactly the first [N] entries, [N] being the
    pooled size that [ksampleEtest] computes.  No entry below [N] is left
    out and none belongs to two groups. *)
Theorem groups_tile_permutation_array (K : Z) (sizes perm : list Z) :
  Forall (λ s, 0 <= s) sizes -> Zsum sizes <= Int.INT_MAX ->
  mjoin ((λ k, take (Z.to_nat (int_at sizes k))
                 (offset perm (int_at (group_offsets K sizes) k))) <$> seqZ 0 K)
  = take (Z.to_nat (pooled_size K sizes)) perm.
Proof.
  intros Hs Hsum. rewrite pooled_size_prefix_sum by done.
  rewrite (list_fmap_ext _ (group_slice sizes perm) (seqZ 0 K)).
  2:{ intros t k Hk. apply list_elem_of_lookup_2, elem_of_seqZ in Hk.
      rewrite group_offsets_prefix by (done || lia). reflexivity. }
  destruct (decide (0 <= K)) as [HK|HK].
  2:{ rewrite seqZ_nil by lia. unfold prefix_sum.
      replace (Z.to_nat K) with 0%nat by lia. reflexivity. }
  rewrite <- (Z2Nat.id K) by done. generalize (Z.to_nat K). clear K HK.
  intros k. induction k as [|k IH].
  - reflexivity.
  - replace (Z.of_nat (Datatypes.S k)) with (Z.of_nat k + 1) by lia.
    rewrite seqZ_app by lia. rewrite fmap_app, join_app, IH. simpl.
    rewrite app_nil_r, !Z.add_0_l. unfold group_slice.
    rewrite prefix_sum_succ by lia.
    pose proof (prefix_sum_bounds sizes (Z.of_nat k) Hs) as Hb.
    pose proof (int_at_nonneg sizes (Z.of_nat k) Hs) as Hn.
    rewrite take_take_drop. f_equal. lia.
Qed.

Lemma groups_tile_permutation_array_witness :
  mjoin ((λ k, take (Z.to_nat (int_at [2; 3; 1] k))
                 (offset [4; 0; 1; 3; 2; 5; 7] (int_at (group_offsets 3 [2; 3; 1]) k)))
         <$> seqZ 0 3)
  = take (Z.to_nat (pooled_size 3 [2; 3; 1])) [4; 0; 1; 3; 2; 5; 7].
Proof.
  apply (groups_tile_permutation_array 3 [2; 3; 1] [4; 0; 1; 3; 2; 5; 7]).
  - repeat constructor; lia.
  - unfold Int.INT_MAX, Zsum. simpl. lia.
Defined.

(** ** The replicates of [ksampleEtest] *)

Section StoreFacts.

Context {double : Type} `{!DoubleOps double}.

Lemma dbl_at_store_eq (e : list double) (b : Z) (v : double) :
  0 <= b < Z.of_nat (length e) -> dbl_at (store e b v) b = v.
Proof.
  intros Hb. unfold dbl_at, store. rewrite list_lookup_insert_eq by lia. reflexivity.
Qed.

Lemma dbl_at_store_ne (e : list double) (b i : Z) (v : double) :
  0 <= b -> 0 <= i -> i <> b -> dbl_at (store e b v) i = dbl_at e i.
Proof.
  intros Hb Hi Hne. unfold dbl_at, store. rewrite list_lookup_insert_ne by lia. reflexivity.
Qed.

End StoreFacts.

Section DriverReplicates.

Context {double : Type} `{!DoubleOps double} {G : Type}.
Variable vector2matrix : list double -> Z -> Z -> Z -> @matrix double.
Variable distance : @matrix double -> Z -> Z -> @matrix double.
Variable permute : G -> list Z -> Z -> list Z * G.

(** After [B] passes of the bootstrap loop, [e[0..B-1]] hold the statistics
    of the [B] calls of [multisampleE] made by the loop, in order, and the
    rest of [e] is as it was. *)
Lemma replicate_loop_values (K : Z) (sizes : list Z) (N U B : Z) (st : state double G) :
  0 <= B -> B <= Z.of_nat (length (st_e st)) ->
  let st' := for_loop 0 B (replicate_step permute K sizes N U) st in
  length (st_e st') = length (st_e st)
  /\ (forall i, B <= i -> dbl_at (st_e st') i = dbl_at (st_e st) i)
  /\ (forall b, 0 <= b < B -> exists p,
        calls st' !! (length (calls st) + Z.to_nat b)%nat = Some (st_D st, p)
        /\ dbl_at (st_e st') b = multisampleE (st_D st) K sizes p U).
Proof.
  intros HB Hlen. cbv zeta.
  pose (P := fun (b : Z) (s : state double G) =>
    st_D s = st_D st
    /\ length (st_e s) = length (st_e st)
    /\ length (calls s) = (length (calls st) + Z.to_nat b)%nat
    /\ (forall i, b <= i -> dbl_at (st_e s) i = dbl_at (st_e st) i)
    /\ (forall b', 0 <= b' < b -> exists p,
          calls s !! (length (calls st) + Z.to_nat b')%nat = Some (st_D st, p)
          /\ dbl_at (st_e s) b' = multisampleE (st_D st) K sizes p U)).
  assert (HP : P B (for_loop 0 B (replicate_step permute K sizes N U) st)).
  { apply for_loop_ind; [| |done].
    - unfold P. split; [done|]. split; [done|]. split; [simpl; lia|]. split; [done|].
      intros b' Hb'. lia.
    - intros b s Hb (HD & Hl & Hc & Hrest & Hdone). unfold P, replicate_step.
      destruct (permute (st_rng s) (st_perm s) N) as [perm rng]. simpl.
      split; [done|]. split; [unfold store; by rewrite length_insert|].
      split; [rewrite length_app, Hc; simpl; lia|]. split.
      + intros i Hi. rewrite dbl_at_store_ne by lia. apply Hrest. lia.
      + intros b' Hb'. destruct (decide (b' = b)) as [->|Hne].
        * exists perm. split.
          -- rewrite lookup_app_r by lia. rewrite Hc, Nat.sub_diag, HD. reflexivity.
          -- rewrite dbl_at_store_eq by lia. by rewrite HD.
        * destruct (Hdone b' ltac:(lia)) as (p & Hp & Hv). exists p. split.
          -- rewrite lookup_app_l by lia. exact Hp.
          -- rewrite dbl_at_store_ne by lia. exact Hv. }
  destruct HP as (_ & Hl & _ & Hrest & Hdone). done.
Qed.

(** X9.  [ksampleEtest] writes [e[0..R-1]] and nothing else of [e]: for a
    buffer [e] of at least [R] entries, [e[b]] is the statistic of the
    [b]-th replicate, the result of the call of [multisampleE] number
    [b + 1] (call 0 computes [e0]) on the distance matrix, and the entries
    from [R] on are as the caller left them. *)
Theorem ksampleEtest_replicates (byrow K : Z) (sizes : list Z) (d R U : Z) (st : state double G) :
  let st' := ksampleEtest vector2matrix distance permute byrow K sizes d R U st in
  R <= Z.of_nat (length (st_e st)) ->
  length (st_e st') = length (st_e st)
  /\ (forall i, R <= i -> dbl_at (st_e st') i = dbl_at (st_e st) i)
  /\ (forall b, 0 <= b < R -> exists p,
        calls st' !! Z.to_nat (b + 1) = Some (st_D st', p)
        /\ dbl_at (st_e st') b = multisampleE (st_D st') K sizes p U).
Proof.
  cbv zeta. intros Hlen. unfold ksampleEtest. cbv zeta.
  destruct (Z.ltb_spec 0 R) as [HR|HR].
  - match goal with |- context [for_loop 0 R ?f ?s] =>
      pose proof (replicate_loop_values K sizes (pooled_size K sizes) U R s
                    ltac:(lia) Hlen) as Hval;
      pose proof (replicate_loop_invariant permute K sizes (pooled_size K sizes) U R s
                    ltac:(lia)) as Hinv;
      set (st1 := s) in *
    end.
    cbv zeta in Hval, Hinv. simpl in Hval, Hinv.
    destruct Hval as (Hl & Hrest & Hdone).
    destruct Hinv as (_ & _ & _ & HD & _). simpl.
    split; [exact Hl|]. split; [exact Hrest|].
    intros b Hb. destruct (Hdone b Hb) as (p & Hp & Hv). exists p.
    rewrite HD. split; [|exact Hv].
    replace (Z.to_nat (b + 1)) with (1 + Z.to_nat b)%nat by lia. exact Hp.
  - simpl. split; [done|]. split; [done|]. intros b Hb. lia.
Qed.

End DriverReplicates.

Lemma ksampleEtest_replicates_witness :
  let st := entry_state [0; 1; 2; 10; 11; 12] 4 in
  let st' := ksampleEtest reshape sample_distance rotate_permute 1 2 [3; 3] 1 3 0 st in
  length (st_e st') = length (st_e st)
  /\ (forall i, 3 <= i -> dbl_at (st_e st') i = dbl_at (st_e st) i)
  /\ (forall b, 0 <= b < 3 -> exists p,
        calls st' !! Z.to_nat (b + 1) = Some (st_D st', p)
        /\ dbl_at (st_e st') b = multisampleE (st_D st') 2 [3; 3] p 0).
Proof.
  intros st st'.
  apply (ksampleEtest_replicates reshape sample_distance rotate_permute 1 2 [3; 3] 1 3 0 st).
  simpl. lia.
Defined.

(** X10.  A single group is not refused: in binary64, [ksampleEtest] with
    [K = 1] and [R > 0] replicates reports the statistic [0.0], fills
    [e[0..R-1]] with [0.0] and returns the p-value [1/(R+1)], whatever the
    data are. *)
Theorem ksampleEtest_single_group_result {G : Type}
    (vector2matrix : list spec_float -> Z -> Z -> Z -> @matrix spec_float)
    (distance : @matrix spec_float -> Z -> Z -> @matrix spec_float)
    (permute : G -> list Z -> Z -> list Z * G)
    (byrow : Z) (sizes : list Z) (d R U : Z) (st : state spec_float G) :
  let st' := ksampleEtest vector2matrix distance permute byrow 1 sizes d R U st in
  0 < R < Int.INT_MAX -> R <= Z.of_nat (length (st_e st)) ->
  st_e0 st' = of_int 0
  /\ (forall b, 0 <= b < R -> dbl_at (st_e st') b = of_int 0)
  /\ st_pval st' = of_int 1 ⊘ of_int (R + 1).
Proof.
  cbv zeta. intros HR Hlen.
  pose proof (ksampleEtest_spec vector2matrix distance permute byrow 1 sizes d R U st) as Hspec.
  cbv zeta in Hspec. destruct Hspec as (_ & _ & He0 & _ & _ & Hpv).
  rewrite multisampleE_single_group in He0.
  assert (Hzero : forall b, 0 <= b < R ->
    dbl_at (st_e (ksampleEtest vector2matrix distance permute byrow 1 sizes d R U st)) b
    = of_int 0).
  { unfold ksampleEtest. cbv zeta. destruct (Z.ltb_spec 0 R) as [_|]; [|lia].
    match goal with |- context [for_loop 0 R ?f ?s] =>
      pose proof (replicate_loop_values permute 1 sizes (pooled_size 1 sizes) U R s
                    ltac:(lia) Hlen) as Hval;
      set (st1 := s) in *
    end.
    cbv zeta in Hval. destruct Hval as (_ & _ & Hdone). simpl.
    intros b Hb. destruct (Hdone b Hb) as (p & _ & Hv).
    rewrite Hv. exact (multisampleE_single_group (st_D st1) sizes p U). }
  split; [exact He0|]. split; [exact Hzero|].
  rewrite Hpv by done. rewrite count_exceeding_none; [reflexivity|].
  intros b Hb. rewrite He0, Hzero by done. reflexivity.
Qed.

Lemma ksampleEtest_single_group_result_witness :
  let st' := ksampleEtest reshape sample_distance rotate_permute 1 1 [3] 1 4 0
               (entry_state [0; 5; 9] 4) in
  st_e0 st' = of_int 0
  /\ (forall b, 0 <= b < 4 -> dbl_at (st_e st') b = of_int 0)
  /\ st_pval st' = of_int 1 ⊘ of_int (4 + 1).
Proof.
  intros st'.
  apply (ksampleEtest_single_group_result reshape sample_distance rotate_permute 1 [3] 1 4 0
           (entry_state [0; 5; 9] 4)).
  - unfold Int.INT_MAX. lia.
  - simpl. lia.
Defined.

(** ** The statistic in real arithmetic *)

(** Reading [X] at the indices [0, 1, ..., length X - 1] gives [X]. *)
Lemma gather_seqZ (X : list Z) : int_at X <$> seqZ 0 (Z.of_nat (length X)) = X.
Proof.
  apply list_eq. intros i. rewrite list_lookup_fmap.
  destruct (decide (i < length X)%nat) as [Hi|Hi].
  - rewrite lookup_seqZ_lt by lia. simpl. unfold int_at.
    replace (Z.to_nat (0 + Z.of_nat i)) with i by lia.
    destruct (lookup_lt_is_Some_2 X i Hi) as [a Ha]. by rewrite Ha.
  - rewrite lookup_seqZ_ge by lia. simpl. symmetry. apply lookup_ge_None_2. lia.
Qed.

Lemma fmap_gather {B : Type} (h : Z -> B) (X : list Z) :
  h <$> X = (λ i, h (int_at X i)) <$> seqZ 0 (Z.of_nat (length X)).
Proof.
  transitivity (h <$> (int_at X <$> seqZ 0 (Z.of_nat (length X)))).
  - by rewrite gather_seqZ.
  - by rewrite <- list_fmap_compose.
Qed.

Lemma Rsum_bind {A : Type} (h : A -> list R) (l : list A) :
  Rsum (l ≫= h) = Rsum ((λ a, Rsum (h a)) <$> l).
Proof.
  induction l as [|a l IH]; [reflexivity|].
  rewrite bind_cons, Rsum_app, IH. reflexivity.
Qed.

Lemma fmap_over_bind {A B C : Type} (f : B -> C) (g : A -> list B) (l : list A) :
  f <$> (l ≫= g) = l ≫= (λ a, f <$> g a).
Proof.
  induction l as [|a l IH]; [reflexivity|].
  by rewrite !bind_cons, fmap_app, IH.
Qed.

(** The sum over all index pairs of two lists is a sum over the lists'
    entries, and so does not depend on their order. *)
Lemma cross_sum_entries (F : Z -> Z -> R) (X Y : list Z) :
  Rsum ((λ p, F (int_at X p.1) (int_at Y p.2))
        <$> cross_pairs (Z.of_nat (length X)) (Z.of_nat (length Y)))
  = Rsum ((λ a, Rsum (F a <$> Y)) <$> X).
Proof.
  unfold cross_pairs. rewrite fmap_over_bind, Rsum_bind.
  rewrite (fmap_gather (λ a, Rsum (F a <$> Y)) X).
  f_equal. apply list_fmap_ext. intros _ i _. simpl. f_equal.
  by rewrite (fmap_gather (F (int_at X i)) Y), <- list_fmap_compose.
Qed.

Lemma cross_sum_Permutation (F : Z -> Z -> R) (X X' Y Y' : list Z) :
  X ≡ₚ X' -> Y ≡ₚ Y' ->
  Rsum ((λ p, F (int_at X p.1) (int_at Y p.2))
        <$> cross_pairs (Z.of_nat (length X)) (Z.of_nat (length Y)))
  = Rsum ((λ p, F (int_at X' p.1) (int_at Y' p.2))
          <$> cross_pairs (Z.of_nat (length X')) (Z.of_nat (length Y'))).
Proof.
  intros HX HY. rewrite !cross_sum_entries.
  rewrite <- (Rsum_fmap_Permutation _ _ _ HX). f_equal. apply list_fmap_ext.
  intros _ a _. by apply Rsum_fmap_Permutation.
Qed.

Lemma diagonal_sum_Permutation (F : Z -> Z -> R) (X X' : list Z) :
  X ≡ₚ X' ->
  Rsum ((λ p, F (int_at X p.1) (int_at X p.2)) <$> diagonal_pairs (Z.of_nat (length X)))
  = Rsum ((λ p, F (int_at X' p.1) (int_at X' p.2))
          <$> diagonal_pairs (Z.of_nat (length X'))).
Proof.
  intros HX. unfold diagonal_pairs. rewrite <- !list_fmap_compose.
  transitivity (Rsum ((λ a, F a a) <$> X)).
  - by rewrite (fmap_gather (λ a, F a a) X).
  - rewrite (Rsum_fmap_Permutation _ _ _ HX). by rewrite (fmap_gather (λ a, F a a) X').
Qed.

Lemma within_sum_Permutation (F : Z -> Z -> R) (X X' : list Z) :
  (forall a b, F a b = F b a) -> X ≡ₚ X' ->
  Rsum ((λ p, F (int_at X p.1) (int_at X p.2)) <$> unordered_pairs (Z.of_nat (length X)))
  = Rsum ((λ p, F (int_at X' p.1) (int_at X' p.2))
          <$> unordered_pairs (Z.of_nat (length X'))).
Proof.
  intros Hsym HX.
  pose proof (Rsum_square_split (λ p, F (int_at X p.1) (int_at X p.2))
                (Z.of_nat (length X)) ltac:(intros; apply Hsym)) as H1.
  pose proof (Rsum_square_split (λ p, F (int_at X' p.1) (int_at X' p.2))
                (Z.of_nat (length X')) ltac:(intros; apply Hsym)) as H2.
  rewrite (cross_sum_Permutation F X X' X X' HX HX) in H1.
  rewrite (diagonal_sum_Permutation F X X' HX) in H1. lra.
Qed.

(** X11.  In real arithmetic, for a symmetric [D], the statistic of two
    groups does not depend on the order in which each group's indices are
    listed: permuting [xrows] and permuting [yrows] leaves [twosampleE]
    unchanged. *)
Theorem twosampleE_reorder_real (D : matrix) (X X' Y Y' : list Z) (unbiased : Z) :
  symmetric D -> X ≡ₚ X' -> Y ≡ₚ Y' ->
  twosampleE (double := R) D (Z.of_nat (length X)) (Z.of_nat (length Y)) X Y unbiased
  = twosampleE D (Z.of_nat (length X')) (Z.of_nat (length Y')) X' Y' unbiased.
Proof.
  intros Hsym HX HY.
  pose proof (Permutation_length HX) as HlX. pose proof (Permutation_length HY) as HlY.
  destruct (decide (Z.of_nat (length X) < 1 \/ Z.of_nat (length Y) < 1)) as [Hd|Hd].
  - rewrite !twosampleE_degenerate by lia. reflexivity.
  - rewrite !twosampleE_unfold by lia. unfold sum_over. rewrite !dsum_Rsum.
    rewrite (cross_sum_Permutation (D_at D) X X' Y Y' HX HY).
    rewrite (within_sum_Permutation (D_at D) X X' Hsym HX).
    rewrite (within_sum_Permutation (D_at D) Y Y' Hsym HY).
    rewrite <- HlX, <- HlY. reflexivity.
Qed.

Lemma twosampleE_reorder_real_witness :
  twosampleE (double := R) (real_line_distances [0; 2; 1; 3; 4])
    (Z.of_nat (length [0; 1])) (Z.of_nat (length [2; 3; 4])) [0; 1] [2; 3; 4] 1
  = twosampleE (real_line_distances [0; 2; 1; 3; 4])
      (Z.of_nat (length [1; 0])) (Z.of_nat (length [4; 2; 3])) [1; 0] [4; 2; 3] 1.
Proof.
  apply (twosampleE_reorder_real (real_line_distances [0; 2; 1; 3; 4])
           [0; 1] [1; 0] [2; 3; 4] [4; 2; 3] 1).
  - solve_symmetric.
  - apply perm_swap.
  - symmetry. apply (Permutation_cons_append [2; 3] 4).
Defined.

(** Scaling. *)
Lemma Rsum_scale {A : Type} (c : R) (f : A -> R) (l : list A) :
  Rsum ((λ a, c * f a)%R <$> l) = (c * Rsum (f <$> l))%R.
Proof.
  induction l as [|a l IH]; csimpl; [unfold Rsum; simpl; ring|].
  change (Rsum ((c * f a)%R :: ((λ a, c * f a)%R <$> l)))
    with (c * f a + Rsum ((λ a, c * f a)%R <$> l))%R.
  change (Rsum (f a :: (f <$> l))) with (f a + Rsum (f <$> l))%R.
  rewrite IH. ring.
Qed.

Lemma D_at_scale_matrix (c : R) (D : list (list R)) (i j : Z) :
  D_at (scale_matrix c D) i j = (c * D_at D i j)%R.
Proof.
  unfold D_at, dbl_at, scale_matrix, matrix. rewrite list_lookup_fmap.
  destruct (D !! Z.to_nat i) as [row|]; simpl.
  - rewrite list_lookup_fmap. destruct (row !! Z.to_nat j); simpl; [reflexivity|ring].
  - ring.
Qed.

Lemma twosampleE_scale_real (c : R) (D : matrix) (m n : Z) (X Y : list Z) (u : Z) :
  twosampleE (scale_matrix c D) m n X Y u = (c * twosampleE D m n X Y u)%R.
Proof.
  destruct (decide (m < 1 \/ n < 1)) as [Hd|Hd].
  - rewrite !twosampleE_degenerate by done. simpl. ring.
  - rewrite !twosampleE_unfold by lia. unfold sum_over. rewrite !dsum_Rsum.
    rewrite !(list_fmap_ext (λ p, D_at (scale_matrix c D) _ _)
                (λ p, (c * D_at D _ _)%R) _ (λ _ p _, D_at_scale_matrix c D _ _)).
    rewrite !Rsum_scale. cbv zeta. destruct (decide (u = 1)); simpl; unfold Rdiv; ring.
Qed.

(** X12.  In real arithmetic the statistic is homogeneous in the distances:
    multiplying every entry of [D] by [c] multiplies [multisampleE], and so
    every replicate, by [c]. *)
Theorem multisampleE_scale_real (c : R) (D : matrix) (K : Z) (sizes perm : list Z)
    (unbiased : Z) :
  multisampleE (scale_matrix c D) K sizes perm unbiased
  = (c * multisampleE D K sizes perm unbiased)%R.
Proof.
  rewrite !multisampleE_unfold, !dsum_Rsum.
  rewrite <- Rsum_scale. f_equal. apply list_fmap_ext. intros _ [i j] _.
  apply twosampleE_scale_real.
Qed.

(** X13.  In real arithmetic, for a symmetric [D], [multisampleE] depends
    on the permutation array only through the set of indices it puts in
    each group: reordering the indices within the groups leaves the
    statistic unchanged. *)
Theorem multisampleE_reorder_within_groups_real (D : matrix) (K : Z)
    (sizes perm perm' : list Z) (unbiased : Z) :
  symmetric D ->
  Forall (λ s, 0 <= s) sizes -> Zsum sizes <= Int.INT_MAX ->
  pooled_size K sizes <= Z.of_nat (length perm) ->
  (forall k, 0 <= k < K -> group_slice sizes perm k ≡ₚ group_slice sizes perm' k) ->
  multisampleE (double := R) D K sizes perm unbiased = multisampleE D K sizes perm' unbiased.
Proof.
  intros Hsym Hs Hsum HN Hgroups. rewrite pooled_size_prefix_sum in HN by done.
  assert (Hlen : forall k, 0 <= k < K ->
            Z.of_nat (length (group_slice sizes perm k)) = int_at sizes k).
  { intros k Hk. unfold group_slice. rewrite length_take, length_drop.
    pose proof (prefix_sum_bounds sizes k Hs) as Hb.
    pose proof (int_at_nonneg sizes k Hs) as Hn.
    pose proof (prefix_sum_mono sizes (k + 1) K Hs ltac:(lia)) as Hmono.
    rewrite prefix_sum_succ in Hmono by lia. lia. }
  rewrite !multisampleE_unfold. apply dsum_fmap_ext.
  intros [i j] Hij%elem_of_unordered_pairs. simpl.
  rewrite !group_offsets_prefix by (done || lia).
  rewrite <- (twosampleE_take D _ _ (offset perm _)),
          <- (twosampleE_take D _ _ (offset perm' _)).
  unfold offset. fold (group_slice sizes perm i) (group_slice sizes perm j).
  fold (group_slice sizes perm' i) (group_slice sizes perm' j).
  pose proof (Hgroups i ltac:(lia)) as Hi. pose proof (Hgroups j ltac:(lia)) as Hj.
  pose proof (Permutation_length Hi) as Hli. pose proof (Permutation_length Hj) as Hlj.
  pose proof (Hlen i ltac:(lia)) as Hmi. pose proof (Hlen j ltac:(lia)) as Hmj.
  destruct (decide (int_at sizes i < 1 \/ int_at sizes j < 1)) as [Hd|Hd].
  - rewrite !twosampleE_degenerate by done. reflexivity.
  - rewrite !twosampleE_unfold by lia. unfold sum_over. rewrite !dsum_Rsum.
    rewrite <- Hmi, <- Hmj.
    rewrite (cross_sum_Permutation (D_at D) _ _ _ _ Hi Hj).
    rewrite (within_sum_Permutation (D_at D) _ _ Hsym Hi).
    rewrite (within_sum_Permutation (D_at D) _ _ Hsym Hj).
    rewrite <- Hli, <- Hlj. reflexivity.
Qed.

Lemma multisampleE_reorder_within_groups_real_witness :
  multisampleE (double := R) (real_line_distances [0; 2; 1; 3; 4]) 2 [2; 3] [0; 1; 2; 3; 4] 0
  = multisampleE (real_line_distances [0; 2; 1; 3; 4]) 2 [2; 3] [1; 0; 4; 2; 3] 0.
Proof.
  apply (multisampleE_reorder_within_groups_real (real_line_distances [0; 2; 1; 3; 4]) 2
           [2; 3] [0; 1; 2; 3; 4] [1; 0; 4; 2; 3] 0).
  - solve_symmetric.
  - repeat constructor; lia.
  - unfold Int.INT_MAX, Zsum. simpl. lia.
  - vm_compute. discriminate.
  - intros k Hk. assert (k = 0 \/ k = 1) as [-> | ->] by lia.
    + apply perm_swap.
    + symmetry. apply (Permutation_cons_append [2; 3] 4).
Defined.

(** ** NaN in binary64 *)

Lemma SFadd_nan_l (y : spec_float) : SFadd B64.prec B64.emax S754_nan y = S754_nan.
Proof. reflexivity. Qed.

Lemma SFadd_nan_r (x : spec_float) : SFadd B64.prec B64.emax x S754_nan = S754_nan.
Proof. by destruct x. Qed.

Lemma SFmul_nan_l (y : spec_float) : SFmul B64.prec B64.emax S754_nan y = S754_nan.
Proof. reflexivity. Qed.

Lemma SFdiv_nan_l (y : spec_float) : SFdiv B64.prec B64.emax S754_nan y = S754_nan.
Proof. reflexivity. Qed.

Lemma SFltb_nan_l (y : spec_float) : SFltb S754_nan y = false.
Proof. reflexivity. Qed.

(** NaN absorbs the operations applied to it. *)
Ltac nan_absorb :=
  repeat first [rewrite SFdiv_nan_l | rewrite SFmul_nan_l | rewrite SFmul_nan_r
               | rewrite SFsub_nan_l | rewrite SFsub_nan_r];
  reflexivity.

(** A sum with a NaN term is NaN. *)
Lemma dsum_nan (l : list spec_float) : NaN ∈ l -> dsum l = NaN.
Proof.
  unfold dsum. generalize (of_int 0 : spec_float). unfold NaN.
  induction l as [|x l IH]; intros s Hin; [by apply elem_of_nil in Hin|].
  apply elem_of_cons in Hin as [<-|Hin]; simpl.
  - rewrite SFadd_nan_r. clear IH. induction l as [|y l IH]; [reflexivity|exact IH].
  - by apply IH.
Qed.

Lemma sum_over_nan (D : @matrix spec_float) (X Y : list Z) (ps : list (Z * Z)) (i j : Z) :
  (i, j) ∈ ps -> D_at D (int_at X i) (int_at Y j) = NaN -> sum_over D X Y ps = NaN.
Proof.
  intros Hin Hnan. unfold sum_over. apply dsum_nan. rewrite <- Hnan.
  apply list_elem_of_fmap. by exists (i, j).
Qed.

(** X14.  In binary64 a NaN among the distances that [twosampleE] reads
    (between the groups, or within one of them) makes the statistic NaN. *)
Theorem twosampleE_nan_distance (D : @matrix spec_float) (m n : Z) (X Y : list Z)
    (unbiased : Z) :
  (exists i j, 0 <= i < m /\ 0 <= j < n /\ D_at D (int_at X i) (int_at Y j) = NaN)
  \/ (exists i j, 0 <= i < j /\ j < m /\ 1 <= n /\ D_at D (int_at X i) (int_at X j) = NaN)
  \/ (exists i j, 0 <= i < j /\ j < n /\ 1 <= m /\ D_at D (int_at Y i) (int_at Y j) = NaN) ->
  twosampleE D m n X Y unbiased = NaN.
Proof.
  intros Hnan.
  assert (Hmn : 1 <= m /\ 1 <= n).
  { destruct Hnan as [(i & j & ? & ? & _)|[(i & j & ? & ? & ? & _)|(i & j & ? & ? & ? & _)]];
      lia. }
  rewrite twosampleE_unfold by lia. cbv zeta. cbn [dsub dmul ddiv B64.ops].
  destruct Hnan as [(i & j & Hi & Hj & Hv)|[(i & j & Hi & Hj & _ & Hv)|(i & j & Hi & Hj & _ & Hv)]].
  - rewrite (sum_over_nan D X Y (cross_pairs m n) i j);
      [|rewrite cross_pairs_loop; apply elem_of_loop_pairs; lia|done].
    unfold NaN. nan_absorb.
  - rewrite (sum_over_nan D X X (unordered_pairs m) i j);
      [|rewrite unordered_pairs_loop; apply elem_of_loop_pairs; lia|done].
    unfold NaN. destruct (decide (unbiased = 1)); nan_absorb.
  - rewrite (sum_over_nan D Y Y (unordered_pairs n) i j);
      [|rewrite unordered_pairs_loop; apply elem_of_loop_pairs; lia|done].
    unfold NaN. destruct (decide (unbiased = 1)); nan_absorb.
Qed.

Lemma twosampleE_nan_distance_witness :
  twosampleE [[of_int 0; of_int 1; NaN]; [of_int 1; of_int 0; of_int 2];
              [NaN; of_int 2; of_int 0]] 2 1 [0; 1] [2] 0 = NaN.
Proof.
  apply (twosampleE_nan_distance
           [[of_int 0; of_int 1; NaN]; [of_int 1; of_int 0; of_int 2];
            [NaN; of_int 2; of_int 0]] 2 1 [0; 1] [2] 0).
  left. exists 0, 0. split; [lia|]. split; [lia|]. reflexivity.
Defined.

(** X15.  A NaN statistic is never exceeded: in binary64, when the
    observed statistic [e0] is NaN, no replicate counts, and
    [ksampleEtest] returns the smallest p-value there is, [1/(R+1)]. *)
Theorem ksampleEtest_nan_statistic_pvalue {G : Type}
    (vector2matrix : list spec_float -> Z -> Z -> Z -> @matrix spec_float)
    (distance : @matrix spec_float -> Z -> Z -> @matrix spec_float)
    (permute : G -> list Z -> Z -> list Z * G)
    (byrow K : Z) (sizes : list Z) (d R U : Z) (st : state spec_float G) :
  let st' := ksampleEtest vector2matrix distance permute byrow K sizes d R U st in
  0 < R < Int.INT_MAX -> st_e0 st' = NaN ->
  st_pval st' = of_int 1 ⊘ of_int (R + 1).
Proof.
  cbv zeta. intros HR Hnan.
  pose proof (ksampleEtest_spec vector2matrix distance permute byrow K sizes d R U st) as Hspec.
  cbv zeta in Hspec. destruct Hspec as (_ & _ & _ & _ & _ & Hpv).
  rewrite Hpv by done. rewrite count_exceeding_none; [reflexivity|].
  intros b Hb. rewrite Hnan. reflexivity.
Qed.

Lemma ksampleEtest_nan_statistic_pvalue_witness :
  st_pval (ksampleEtest reshape sample_distance rotate_permute 1 2 [1; 1] 1 3 1
             (entry_state [0; 5] 3))
  = of_int 1 ⊘ of_int (3 + 1).
Proof.
  apply (ksampleEtest_nan_statistic_pvalue reshape sample_distance rotate_permute
           1 2 [1; 1] 1 3 1 (entry_state [0; 5] 3)).
  - unfold Int.INT_MAX. lia.
  - vm_compute. reflexivity.
Defined.

(** ** The sequence of shuffles *)

Section DriverShuffles.

Context {double : Type} `{!DoubleOps double} {G : Type}.
Variable vector2matrix : list double -> Z -> Z -> Z -> @matrix double.
Variable distance : @matrix double -> Z -> Z -> @matrix double.
Variable permute : G -> list Z -> Z -> list Z * G.

(** Each pass of the bootstrap loop shuffles the array left by the pass
    before it. *)
Lemma replicate_loop_shuffles (K : Z) (sizes : list Z) (N U B : Z) (st : state double G) :
  0 <= B -> B <= Z.of_nat (length (st_e st)) ->
  let st' := for_loop 0 B (replicate_step permute K sizes N U) st in
  (st_perm st', st_rng st') = shuffles permute N (Z.to_nat B) (st_perm st) (st_rng st)
  /\ (forall b, 0 <= b < B ->
        dbl_at (st_e st') b
        = multisampleE (st_D st) K sizes
            (shuffles permute N (Datatypes.S (Z.to_nat b)) (st_perm st) (st_rng st)).1 U).
Proof.
  intros HB Hlen. cbv zeta.
  pose (P := fun (b : Z) (s : state double G) =>
    st_D s = st_D st
    /\ length (st_e s) = length (st_e st)
    /\ (st_perm s, st_rng s) = shuffles permute N (Z.to_nat b) (st_perm st) (st_rng st)
    /\ (forall b', 0 <= b' < b ->
          dbl_at (st_e s) b'
          = multisampleE (st_D st) K sizes
              (shuffles permute N (Datatypes.S (Z.to_nat b')) (st_perm st) (st_rng st)).1 U)).
  assert (HP : P B (for_loop 0 B (replicate_step permute K sizes N U) st)).
  { apply for_loop_ind; [| |done].
    - unfold P. split; [done|]. split; [done|]. split; [reflexivity|]. intros b' Hb'. lia.
    - intros b s Hb (HD & Hl & Hsh & Hdone).
      assert (Hnext : shuffles permute N (Datatypes.S (Z.to_nat b)) (st_perm st) (st_rng st)
                      = permute (st_rng s) (st_perm s) N).
      { unfold shuffles in *. simpl. by rewrite <- Hsh. }
      unfold P, replicate_step.
      destruct (permute (st_rng s) (st_perm s) N) as [perm rng] eqn:Hperm.
      cbn [st_D st_e st_perm st_rng].
      split; [done|]. split; [unfold store; by rewrite length_insert|]. split.
      + replace (Z.to_nat (b + 1)) with (Datatypes.S (Z.to_nat b)) by lia.
        by rewrite Hnext.
      + intros b' Hb'. destruct (decide (b' = b)) as [->|Hne].
        * rewrite dbl_at_store_eq by lia. by rewrite Hnext, HD.
        * rewrite dbl_at_store_ne by lia. apply Hdone. lia. }
  destruct HP as (_ & _ & Hsh & Hdone). done.
Qed.

(** X16.  The shuffles of [ksampleEtest] are cumulative: the permutation
    array starts as the identity and is never reset, so replicate [b] is the
    statistic of the array after [b + 1] successive calls of [permute], and
    the array and the random-number state at the end are those after
    [R] calls (none for [R <= 0]). *)
Theorem ksampleEtest_cumulative_shuffles (byrow K : Z) (sizes : list Z) (d R U : Z)
    (st : state double G) :
  let N := pooled_size K sizes in
  let D := build_D vector2matrix distance (st_x st) byrow N d in
  let st' := ksampleEtest vector2matrix distance permute byrow K sizes d R U st in
  R <= Z.of_nat (length (st_e st)) ->
  (st_perm st', st_rng st') = shuffles permute N (Z.to_nat R) (seqZ 0 N) (st_rng st)
  /\ (forall b, 0 <= b < R ->
        dbl_at (st_e st') b
        = multisampleE D K sizes
            (shuffles permute N (Datatypes.S (Z.to_nat b)) (seqZ 0 N) (st_rng st)).1 U).
Proof.
  cbv zeta. intros Hlen. unfold ksampleEtest. cbv zeta. rewrite identity_perm_seqZ.
  destruct (Z.ltb_spec 0 R) as [HR|HR].
  - match goal with |- context [for_loop 0 R ?f ?s] =>
      pose proof (replicate_loop_shuffles K sizes (pooled_size K sizes) U R s
                    ltac:(lia) Hlen) as Hsh;
      set (st1 := s) in *
    end.
    cbv zeta in Hsh. exact Hsh.
  - simpl. replace (Z.to_nat R) with 0%nat by lia. split; [reflexivity|].
    intros b Hb. lia.
Qed.

End DriverShuffles.

Lemma ksampleEtest_cumulative_shuffles_witness :
  let st := entry_state [0; 1; 2; 10; 11; 12] 4 in
  let N := pooled_size 2 [3; 3] in
  let D := build_D reshape sample_distance (st_x st) 1 N 1 in
  let st' := ksampleEtest reshape sample_distance rotate_permute 1 2 [3; 3] 1 3 0 st in
  (st_perm st', st_rng st') = shuffles rotate_permute N (Z.to_nat 3) (seqZ 0 N) (st_rng st)
  /\ (forall b, 0 <= b < 3 ->
        dbl_at (st_e st') b
        = multisampleE D 2 [3; 3]
            (shuffles rotate_permute N (Datatypes.S (Z.to_nat b)) (seqZ 0 N) (st_rng st)).1 0).
Proof.
  intros st N D st'.
  apply (ksampleEtest_cumulative_shuffles reshape sample_distance rotate_permute
           1 2 [3; 3] 1 3 0 st).
  simpl. lia.
Defined.

(** ** Group sizes beyond the square root of [INT_MAX] *)

Section ConstantSums.

Context {double : Type} `{!DoubleOps double}.

(** Adding a list of equal terms is adding the term as many times as the
    list is long. *)
Lemma foldl_dadd_const {A : Type} (g : A -> double) (c : double) (l : list A) (s : double) :
  (forall a, a ∈ l -> g a = c) ->
  foldl dadd s (g <$> l) = Nat.iter (length l) (fun s => s ⊕ c) s.
Proof.
  revert s. induction l as [|a l IH]; intros s Hg; [reflexivity|].
  csimpl. rewrite IH by (intros b Hb; apply Hg; by constructor).
  rewrite (Hg a) by constructor. clear. induction (length l) as [|k IHk]; [reflexivity|].
  simpl. by rewrite IHk.
Qed.

Lemma foldl_dadd_neutral {A : Type} (g : A -> double) (c : double) (l : list A) (s : double) :
  (forall a, a ∈ l -> g a = c) -> s ⊕ c = s -> foldl dadd s (g <$> l) = s.
Proof.
  intros Hg Hs. rewrite (foldl_dadd_const g c) by done.
  induction (length l) as [|k IHk]; [reflexivity|]. simpl. by rewrite IHk.
Qed.

End ConstantSums.

Lemma int_at_cons_replicate (a b : Z) (k : nat) (i : Z) :
  0 <= i <= Z.of_nat k -> int_at (a :: replicate k b) i = if decide (i = 0) then a else b.
Proof.
  intros Hi. unfold int_at. destruct (decide (i = 0)) as [->|Hne]; [reflexivity|].
  replace (Z.to_nat i) with (Datatypes.S (Z.to_nat (i - 1))) by lia.
  simpl. rewrite lookup_replicate_2 by lia. reflexivity.
Qed.

Lemma D_at_line_distances (pts : list Z) (i j : Z) :
  0 <= i < Z.of_nat (length pts) -> 0 <= j < Z.of_nat (length pts) ->
  D_at (B64.line_distances pts) i j = of_int (Z.abs (int_at pts i - int_at pts j)).
Proof.
  intros Hi Hj. unfold D_at, dbl_at, B64.line_distances, int_at, matrix.
  destruct (lookup_lt_is_Some_2 pts (Z.to_nat i) ltac:(lia)) as [a Ha].
  destruct (lookup_lt_is_Some_2 pts (Z.to_nat j) ltac:(lia)) as [b Hb].
  rewrite list_lookup_fmap, Ha. simpl. rewrite list_lookup_fmap, Hb. reflexivity.
Qed.

Lemma line_distances_symmetric (pts : list Z) : symmetric (B64.line_distances pts).
Proof.
  intros i j. unfold D_at, dbl_at, B64.line_distances, matrix.
  rewrite !list_lookup_fmap.
  destruct (pts !! Z.to_nat i) as [a|] eqn:Ha, (pts !! Z.to_nat j) as [b|] eqn:Hb;
    simpl; rewrite ?list_lookup_fmap, ?Ha, ?Hb; simpl; try reflexivity.
  f_equal. lia.
Qed.

(** One point of the first group at distance [1] from all the others, which
    coincide: with [m = 46341] and [n = 1] the sums of [twosampleE] are
    [46340], [0] and [1], and the rest is arithmetic on [int]s and doubles. *)
Lemma twosampleE_one_point_apart (D : @matrix spec_float) (X Y : list Z) :
  (forall i j, 0 <= i < j -> j < 46341 ->
     D_at D (int_at X i) (int_at X j) = if decide (i = 0) then of_int 1 else of_int 0) ->
  (forall i, 0 <= i < 46341 ->
     D_at D (int_at X i) (int_at Y 0) = if decide (i = 0) then of_int 1 else of_int 0) ->
  twosampleE D 46341 1 X Y 0 = S754_finite false 6368852388745765 (-66)
  /\ energy_formula D 46341 1 X Y 0 = S754_finite false 9006985459387287 (-83).
Proof.
  intros Hwithin Hcross.
  assert (Hxx : sum_over D X X (unordered_pairs 46341) = of_int 46340).
  { unfold sum_over, dsum, unordered_pairs.
    rewrite (seqZ_cons 0 46341) by lia. rewrite bind_cons, fmap_app, foldl_app.
    match goal with |- foldl dadd (foldl dadd ?s (?g <$> ?h)) _ = _ =>
      assert (Hhead : foldl dadd s (g <$> h) = of_int 46340)
    end.
    { rewrite (foldl_dadd_const _ (of_int 1)).
      - rewrite length_fmap, length_seqZ. vm_compute. reflexivity.
      - intros [i j] Hij. apply list_elem_of_fmap in Hij as (j' & Heq & Hj%elem_of_seqZ).
        injection Heq as -> ->. simpl. rewrite Hwithin by lia. reflexivity. }
    rewrite Hhead.
    apply (foldl_dadd_neutral _ (of_int 0)); [|reflexivity].
    intros [i j] Hij. apply list_elem_of_bind in Hij as (i' & Hj & Hi%elem_of_seqZ).
    apply list_elem_of_fmap in Hj as (j' & Heq & Hj%elem_of_seqZ).
    injection Heq as -> ->. simpl. rewrite Hwithin by lia.
    destruct (decide (i' = 0)); [lia|]. reflexivity. }
  assert (Hxy : sum_over D X Y (cross_pairs 46341 1) = of_int 1).
  { unfold sum_over, dsum, cross_pairs.
    rewrite (seqZ_cons 0 46341) by lia. rewrite bind_cons, fmap_app, foldl_app.
    match goal with |- foldl dadd (foldl dadd ?s (?g <$> ?h)) _ = _ =>
      assert (Hhead : foldl dadd s (g <$> h) = of_int 1)
    end.
    { simpl. rewrite Hcross by lia. reflexivity. }
    rewrite Hhead.
    apply (foldl_dadd_neutral _ (of_int 0)); [|reflexivity].
    intros [i j] Hij. apply list_elem_of_bind in Hij as (i' & Hj & Hi%elem_of_seqZ).
    apply list_elem_of_fmap in Hj as (j' & Heq & Hj%elem_of_seqZ).
    injection Heq as -> ->. simpl. assert (j' = 0) as -> by lia. rewrite Hcross by lia.
    destruct (decide (i' = 0)); [lia|]. reflexivity. }
  assert (Hyy : sum_over D Y Y (unordered_pairs 1) = of_int 0) by reflexivity.
  split.
  - rewrite twosampleE_unfold by lia. cbv zeta. rewrite Hxx, Hxy, Hyy.
    vm_compute. reflexivity.
  - unfold energy_formula. rewrite Hxx, Hxy, Hyy. vm_compute. reflexivity.
Qed.

(** C1.  The formula fails beyond [m = 46340], where the [int] product
    [m*m] no longer fits: [46341 * 46341] is [-2147479015] as an [int], and
    [(double)(m*m)] is negative.  For the pooled sample of the 46342
    points [1, 0, 0, ..., 0] on a line (symmetric distances [|a - b|]),
    with the first 46341 points as one group and the last as the other,
    [twosampleE] returns [8.631404495147066e-05], where the formula of the
    claim gives [9.313004686940237e-10]. *)
Theorem twosampleE_int_overflow :
  let D := B64.line_distances (1 :: replicate (Z.to_nat 46341) 0) in
  Int.mul 46341 46341 = -2147479015
  /\ symmetric D
  /\ twosampleE D 46341 1 (seqZ 0 46341) [46341] 0
     = S754_finite false 6368852388745765 (-66)
  /\ energy_formula D 46341 1 (seqZ 0 46341) [46341] 0
     = S754_finite false 9006985459387287 (-83).
Proof.
  intros D. split; [reflexivity|].
  assert (Hlen : Z.of_nat (length (1 :: replicate (Z.to_nat 46341) 0)) = 46342).
  { cbn [length]. rewrite length_replicate. lia. }
  assert (Hpt : forall i, 0 <= i < 46342 ->
            int_at (1 :: replicate (Z.to_nat 46341) 0) i = if decide (i = 0) then 1 else 0).
  { intros i Hi. apply int_at_cons_replicate. lia. }
  assert (HD : forall i j, 0 <= i < 46342 -> 0 <= j < 46342 ->
            D_at D i j = of_int (Z.abs ((if decide (i = 0) then 1 else 0)
                                        - (if decide (j = 0) then 1 else 0)))).
  { intros i j Hi Hj. unfold D. rewrite D_at_line_distances by lia.
    by rewrite !Hpt by lia. }
  split; [apply line_distances_symmetric|].
  apply twosampleE_one_point_apart.
  - intros i j Hi Hj. rewrite !int_at_seqZ by lia. rewrite HD by lia.
    destruct (decide (0 + i = 0)), (decide (0 + j = 0)), (decide (i = 0)); try lia; reflexivity.
  - intros i Hi. rewrite int_at_seqZ by lia. change (int_at [46341] 0) with 46341.
    rewrite HD by lia.
    destruct (decide (0 + i = 0)), (decide (46341 = 0)), (decide (i = 0)); try lia; reflexivity.
Qed.

(** The same reads, and the same two values, with the points [1, 0, 0]
    alone and the index [1] repeated. *)
Example twosampleE_int_overflow_three_points :
  twosampleE (B64.line_distances [1; 0; 0]) 46341 1 (0 :: replicate (Z.to_nat 46340) 1) [2] 0
  = S754_finite false 6368852388745765 (-66)
  /\ energy_formula (B64.line_distances [1; 0; 0]) 46341 1
       (0 :: replicate (Z.to_nat 46340) 1) [2] 0
     = S754_finite false 9006985459387287 (-83).
Proof.
  assert (Hx : forall i, 0 <= i < 46341 ->
            int_at (0 :: replicate (Z.to_nat 46340) 1) i = if decide (i = 0) then 0 else 1).
  { intros i Hi. apply int_at_cons_replicate. lia. }
  apply twosampleE_one_point_apart.
  - intros i j Hi Hj. rewrite !Hx by lia.
    destruct (decide (i = 0)), (decide (j = 0)); try lia; reflexivity.
  - intros i Hi. rewrite Hx by lia. destruct (decide (i = 0)); reflexivity.
Qed.
